(** * dask.bag.avro: header reader, chunk reconstruction and partition planning

    A shallow embedding of [dask/bag/avro.py].  Python integers are
    unbounded, so they are modelled by [Z] with the bit operations of
    [Z]; byte strings are lists of [Byte.byte]; the file object is a
    buffer with a stream position, threaded through a small
    state-and-exception monad in which a raised exception keeps the
    state reached so far (as the Python file object does). *)

From Stdlib Require Import ZArith Lia List String.
From Stdlib Require Import Strings.Byte.
From stdpp Require Import base list countable gmap strings pretty.

Local Open Scope Z_scope.

(** ** Byte strings *)

Abbreviation bytes := (list byte).

(** [ord] of one byte: its value in [0, 255]. *)
Definition byte_val (b : byte) : Z := Z.of_N (Byte.to_N b).

(** The byte with a given value (values outside [0, 255] are never
    passed; they map to [x00]). *)
Definition byte_of_Z (z : Z) : byte :=
  match Byte.of_N (Z.to_N z) with
  | Some b => b
  | None => x00
  end.

#[global] Instance byte_eq_decision : EqDecision byte := Byte.byte_eq_dec.

#[global] Instance byte_countable : Countable byte :=
  inj_countable Byte.to_N Byte.of_N Byte.of_to_N.

(** [MAGIC = b'Obj\x01'] and [SYNC_SIZE = 16]. *)
Definition MAGIC : bytes := [x4f; x62; x6a; x01].
Definition SYNC_SIZE : Z := 16.

(** ** Exceptions and outcomes *)

Inductive exn : Type :=
| AssertionError (msg : string)
| TypeError (msg : string)
| ValueError (msg : string)
| OverflowError (msg : string).

(** The outcome of running a piece of code: a value, a raised
    exception, or [OutOfFuel] when a bounded loop of the model ran out
    of iterations (shown below never to happen for the functions of the
    module). *)
Inductive outcome (A : Type) : Type :=
| Ok (a : A)
| Raise (e : exn)
| OutOfFuel.

Arguments Ok {A} a.
Arguments Raise {A} e.
Arguments OutOfFuel {A}.

(** ** The file object: [io.BytesIO] in bytes mode *)

Record BytesIO : Type := mkBytesIO { buf : bytes; pos : nat }.

(** Bytes between the stream position and the end of the buffer. *)
Definition unread (fo : BytesIO) : bytes := drop (pos fo) (buf fo).

Definition M (A : Type) : Type := BytesIO -> outcome A * BytesIO.

Definition ret {A} (a : A) : M A := fun fo => (Ok a, fo).

Definition raise {A} (e : exn) : M A := fun fo => (Raise e, fo).

Definition bind {A B} (m : M A) (k : A -> M B) : M B :=
  fun fo =>
    match m fo with
    | (Ok a, fo') => k a fo'
    | (Raise e, fo') => (Raise e, fo')
    | (OutOfFuel, fo') => (OutOfFuel, fo')
    end.

Notation "x <- m ;; k" := (bind m (fun x => k))
  (at level 100, m at next level, right associativity).
Notation "m ;;; k" := (bind m (fun _ => k))
  (at level 100, right associativity).

(** The integers that fit [Py_ssize_t], to which [read] and [seek]
    convert their argument. *)
Definition in_ssize (z : Z) : bool := (- 2 ^ 63 <=? z) && (z <? 2 ^ 63).

(** [fo.read(size)]: at most [size] bytes from the stream position, all
    the remaining bytes when [size] is negative; the position advances
    by the number of bytes returned.  A size that does not fit
    [Py_ssize_t] raises [OverflowError] and reads nothing. *)
Definition read (size : Z) : M bytes :=
  fun fo =>
    if in_ssize size then
      let out := if size <? 0 then unread fo
                 else take (Z.to_nat size) (unread fo) in
      (Ok out, {| buf := buf fo; pos := (pos fo + length out)%nat |})
    else
      (Raise (OverflowError "cannot fit 'int' into an index-sized integer"),
       fo).

(** [fo.tell()]. *)
Definition tell : M Z := fun fo => (Ok (Z.of_nat (pos fo)), fo).

(** [fo.seek(p)]. *)
Definition seek (p : Z) : M Z :=
  fun fo =>
    if negb (in_ssize p) then
      (Raise (OverflowError "cannot fit 'int' into an index-sized integer"),
       fo)
    else if p <? 0 then (Raise (ValueError "negative seek value"), fo)
    else (Ok p, {| buf := buf fo; pos := Z.to_nat p |}).

(** [ord(c)]: defined on byte strings of length one only. *)
Definition ord (c : bytes) : M Z :=
  match c with
  | [b] => ret (byte_val b)
  | _ => raise (TypeError "ord() expected a character")
  end.

(** [assert cond, msg]. *)
Definition assert_ (cond : bool) (msg : string) : M unit :=
  if cond then ret tt else raise (AssertionError msg).

(** Number of iterations that a loop consuming at least one byte per
    iteration can make from the current position, plus one. *)
Definition fuel_here : M nat :=
  fun fo => (Ok (S (length (unread fo))), fo).

(** ** [read_long]: variable-length, zig-zag encoding *)

(** The [while (b & 0x80) != 0] loop, with its state [b], [n], [shift]. *)
Fixpoint read_long_loop (fuel : nat) (b n shift : Z) : M Z :=
  if Z.land b 0x80 =? 0 then ret n
  else
    match fuel with
    | O => fun fo => (OutOfFuel, fo)
    | S fuel' =>
        c <- read 1 ;;
        b' <- ord c ;;
        read_long_loop fuel' b' (Z.lor n (Z.shiftl (Z.land b' 0x7F) shift))
                       (shift + 7)
    end.

Definition read_long : M Z :=
  c <- read 1 ;;
  b <- ord c ;;
  fuel <- fuel_here ;;
  n <- read_long_loop fuel b (Z.land b 0x7F) 7 ;;
  ret (Z.lxor (Z.shiftr n 1) (- Z.land n 1)).

(** ** [read_bytes]: a long followed by that many bytes of data *)

Definition read_bytes : M bytes :=
  size <- read_long ;;
  read size.

(** ** [range] and [for] loops *)

(** Number of elements of [range(start, stop, step)] for a non-zero
    [step]. *)
Definition range_len (start stop step : Z) : Z :=
  if 0 <? step then
    if start <? stop then (stop - start - 1) / step + 1 else 0
  else if step <? 0 then
    if stop <? start then (start - stop - 1) / (- step) + 1 else 0
  else 0.

(** [list(range(start, stop, step))] for a non-zero [step]. *)
Definition py_range (start stop step : Z) : list Z :=
  map (fun i => start + Z.of_nat i * step)
      (seq 0 (Z.to_nat (range_len start stop step))).

(** [for x in l: body(x)]. *)
Fixpoint for_ {A} (l : list A) (body : A -> M unit) : M unit :=
  match l with
  | [] => ret tt
  | x :: l' => body x ;;; for_ l' body
  end.

(** ** [read_header] *)

(** The returned dictionary, with its four keys ['meta'], ['sync'],
    ['header_size'] and ['head_bytes']. *)
Record Header : Type := mkHeader {
  meta : gmap bytes bytes;
  sync : bytes;
  header_size : Z;
  head_bytes : bytes
}.

(** The [while True] loop: a count, then that many (key, value) pairs,
    both read and dropped, until a zero count. *)
Fixpoint read_header_loop (fuel : nat) : M unit :=
  match fuel with
  | O => fun fo => (OutOfFuel, fo)
  | S fuel' =>
      n_keys <- read_long ;;
      if n_keys =? 0 then ret tt
      else
        for_ (py_range 0 n_keys 1)
             (fun _ => read_bytes ;;; read_bytes ;;; ret tt) ;;;
        read_header_loop fuel'
  end.

Definition read_header : M Header :=
  magic <- read (Z.of_nat (length MAGIC)) ;;
  assert_ (bool_decide (magic = MAGIC)) "Magic avro bytes missing" ;;;
  let meta := ∅ in
  fuel <- fuel_here ;;
  read_header_loop fuel ;;;
  sync <- read SYNC_SIZE ;;
  header_size <- tell ;;
  seek 0 ;;;
  head_bytes <- read header_size ;;
  ret {| meta := meta; sync := sync; header_size := header_size;
         head_bytes := head_bytes |}.

(** ** The partition plan of [read_avro] *)

(** The body of [for size in sizes]: the offsets and the lengths of the
    windows of one file. *)
Definition file_offsets_lengths (size blocksize : Z)
  : outcome (list Z * list Z) :=
  if blocksize =? 0 then
    Raise (ValueError "range() arg 3 must not be zero")
  else
    let off := py_range 0 size blocksize in
    let length := repeat blocksize (length off) in
    Ok (off, length).

(** [offsets] and [lengths] after the loop over [sizes]. *)
Fixpoint offsets_lengths (sizes : list Z) (blocksize : Z)
  : outcome (list (list Z) * list (list Z)) :=
  match sizes with
  | [] => Ok ([], [])
  | size :: sizes' =>
      match file_offsets_lengths size blocksize with
      | Ok (off, length) =>
          match offsets_lengths sizes' blocksize with
          | Ok (offsets, lengths) => Ok (off :: offsets, length :: lengths)
          | Raise e => Raise e
          | OutOfFuel => OutOfFuel
          end
      | Raise e => Raise e
      | OutOfFuel => OutOfFuel
      end
  end.

(** The windows [(o, l)] of one file, as [zip(offset, length)] pairs
    them up for [read_chunk]. *)
Definition windows (size blocksize : Z) : outcome (list (Z * Z)) :=
  match file_offsets_lengths size blocksize with
  | Ok (off, length) => Ok (zip off length)
  | Raise e => Raise e
  | OutOfFuel => OutOfFuel
  end.

(** ** [read_chunk] *)

(** [s.startswith(prefix)]. *)
Definition startswith (s prefix : bytes) : bool :=
  bool_decide (take (length prefix) s = prefix).

Section ReadChunk.

(** The collaborators: the opened file with
    [dask.bytes.core.read_block], and the record decoder
    [fastavro.iter_avro] with the type of its records. *)
Context {OpenFile Rec : Type}.
Variable read_block : OpenFile -> Z -> Z -> bytes -> outcome bytes.
Variable iter_avro : BytesIO -> outcome (list Rec).

Definition read_chunk (fobj : OpenFile) (off l : Z) (head : Header)
  : outcome (list Rec) :=
  match read_block fobj off l (sync head) with
  | Ok chunk =>
      let head_bytes := head_bytes head in
      let chunk :=
        if negb (startswith chunk MAGIC) then head_bytes ++ chunk
        else chunk in
      let i := mkBytesIO chunk 0 in
      iter_avro i
  | Raise e => Raise e
  | OutOfFuel => OutOfFuel
  end.

End ReadChunk.

(** ** The writer side of the format

    The module only reads headers; the bytes it reads are produced by
    the record codec library, which is not part of the module.  The
    definitions of this section follow the description of the format:
    the zig-zag varint encoder and the layout of a header (magic,
    blocks of counted key/value pairs, a zero count, the sync token). *)

(** Modelled from the spec: the zig-zag mapping of a signed 64-bit
    integer to an unsigned magnitude. *)
Definition zigzag (datum : Z) : Z :=
  Z.lxor (Z.shiftl datum 1) (Z.shiftr datum 63).

(** Modelled from the spec: seven bits per byte, low bits first, top
    bit set on every byte but the last. *)
Fixpoint varint (fuel : nat) (datum : Z) : bytes :=
  match fuel with
  | O => []
  | S fuel' =>
      if Z.land datum (Z.lnot 0x7F) =? 0 then [byte_of_Z datum]
      else byte_of_Z (Z.lor (Z.land datum 0x7F) 0x80)
             :: varint fuel' (Z.shiftr datum 7)
  end.

(** Modelled from the spec: the encoding of a long; ten bytes hold
    the 64 bits of a zig-zagged long. *)
Definition write_long (datum : Z) : bytes := varint 10 (zigzag datum).

(** Modelled from the spec: framed bytes, an entry, a block of entries
    and a whole header. *)
Definition write_bytes (data : bytes) : bytes :=
  write_long (Z.of_nat (length data)) ++ data.

Definition write_entry (kv : bytes * bytes) : bytes :=
  write_bytes kv.1 ++ write_bytes kv.2.

Definition write_block (entries : list (bytes * bytes)) : bytes :=
  write_long (Z.of_nat (length entries)) ++ flat_map write_entry entries.

Definition write_header (blocks : list (list (bytes * bytes)))
                        (sync_token : bytes) : bytes :=
  MAGIC ++ flat_map write_block blocks ++ write_long 0 ++ sync_token.

(** A long fits the format when it is a 64-bit signed integer. *)
Definition is_long (n : Z) : Prop := - 2 ^ 63 <= n < 2 ^ 63.

(** Byte strings that a Python object can hold: fewer than [2 ^ 63]
    bytes, so that their length fits [Py_ssize_t]. *)
Definition short (data : bytes) : Prop := Z.of_nat (length data) < 2 ^ 63.

(** A block as the format lays it out: not empty (an empty one would
    be the terminator), with a count and lengths that are longs. *)
Definition wf_block (entries : list (bytes * bytes)) : Prop :=
  entries <> [] /\ Z.of_nat (length entries) < 2 ^ 63 /\
  Forall (fun kv => short kv.1 /\ short kv.2) entries.

(** A header as the format lays it out: such blocks, a sync token of
    [SYNC_SIZE] bytes, and a length that fits [Py_ssize_t], as the
    length of every file does (the header is read again with
    [fo.read(header_size)]). *)
Definition wf_header (blocks : list (list (bytes * bytes)))
                     (sync_token : bytes) : Prop :=
  Forall wf_block blocks /\ Z.of_nat (length sync_token) = SYNC_SIZE /\
  short (write_header blocks sync_token).

(** ** Notions used to state the properties *)

(** Sum of the lengths of a list of windows. *)
Definition total_length (ws : list (Z * Z)) : Z := foldr Z.add 0 (ws.*2).

(** The unread bytes of a file object lie inside its buffer. *)
Definition in_bounds (fo : BytesIO) : Prop := (pos fo <= length (buf fo))%nat.

(** The bytes that [fo.read(size)] returns. *)
Definition read_data (size : Z) (fo : BytesIO) : bytes :=
  if size <? 0 then unread fo else take (Z.to_nat size) (unread fo).

(** [m] run on a source whose unread bytes begin with [enc] returns [a]
    and leaves the source just after [enc]. *)
Definition consumes {A} (m : M A) (enc : bytes) (a : A) : Prop :=
  forall fo rest,
    unread fo = enc ++ rest ->
    m fo = (Ok a, {| buf := buf fo; pos := (pos fo + length enc)%nat |}).

(** A computation is steady when, whatever its outcome, it leaves the
    buffer as it was, never moves the position backwards and keeps it
    inside the buffer. *)
Definition steady {A} (m : M A) : Prop :=
  forall fo r fo',
    m fo = (r, fo') ->
    buf fo' = buf fo /\ (pos fo <= pos fo')%nat /\
    (in_bounds fo -> in_bounds fo').

(** A computation terminates when its loops never reach their bound. *)
Definition terminates {A} (m : M A) : Prop :=
  forall fo, fst (m fo) <> OutOfFuel.

(** The mapping that the metadata of a header denotes: its pairs in
    the order of the stream, a later pair for a key replacing an
    earlier one. *)
Definition written_meta (blocks : list (list (bytes * bytes)))
  : gmap bytes bytes :=
  foldl (fun m kv => <[kv.1 := kv.2]> m) ∅ (concat blocks).

(** ** A sample file

    A header with one metadata block of one entry, key [k] and value
    [v], followed by three bytes of data and the sync token; a storage
    that returns the bytes of a window as they are, and a decoder that
    makes one record of every byte after the header. *)

Definition sample_sync : bytes := repeat x55 16.

Definition sample_blocks : list (list (bytes * bytes)) := [[([x6b], [x76])]].

Definition sample_header_bytes : bytes := write_header sample_blocks sample_sync.

Definition sample_data : bytes := [x02; x02; x2a] ++ sample_sync.

Definition sample_file : BytesIO :=
  mkBytesIO (sample_header_bytes ++ sample_data) 0.

Definition sample_header : Header :=
  {| meta := ∅; sync := sample_sync; header_size := 26;
     head_bytes := sample_header_bytes |}.

Definition sample_read_block (f : BytesIO) (off l : Z) (delimiter : bytes)
  : outcome bytes :=
  Ok (take (Z.to_nat l) (drop (Z.to_nat off) (buf f))).

Definition sample_iter_avro (i : BytesIO) : outcome (list byte) :=
  Ok (drop (length sample_header_bytes) (buf i)).

(** ** The tasks of [read_avro] for the windows of one file *)

(** ['read-avro-%s-%s' % (o, token)]: the offset in decimal, as [str]
    prints an integer, between the fixed prefix and the token. *)
Definition key_name (o : Z) (token : string) : string :=
  "read-avro-" +:+ pretty o +:+ "-" +:+ token.

(** A delayed call [dread(f, o, l, head, dask_key_name=key)]. *)
Record Delayed (OpenFile : Type) : Type := mkDelayed {
  arg_fobj : OpenFile;
  arg_off : Z;
  arg_l : Z;
  arg_head : Header;
  dask_key_name : string
}.

Arguments mkDelayed {OpenFile} _ _ _ _ _.
Arguments arg_fobj {OpenFile} _.
Arguments arg_off {OpenFile} _.
Arguments arg_l {OpenFile} _.
Arguments arg_head {OpenFile} _.
Arguments dask_key_name {OpenFile} _.

(** The body of the loop over the files, for one file: [keys], then
    [values] over [zip(offset, keys, length)].  The token is what
    [tokenize] returned for the file. *)
Definition file_tasks {OpenFile} (f : OpenFile) (offset length : list Z)
    (head : Header) (token : string) : list (Delayed OpenFile) :=
  let keys := map (fun o => key_name o token) offset in
  map (fun okl => mkDelayed f okl.1.1 okl.2 head okl.1.2)
      (zip (zip offset keys) length).

(** ** The task graph of [to_avro] *)

(** A task [(_write_avro_part, (b.name, i), f, schema, codec,
    sync_interval, metadata)]: the partition of the bag to write, and
    the arguments of the writer. *)
Record WriteTask (File Schema Meta : Type) : Type := mkWriteTask {
  task_part : string * nat;
  task_file : File;
  task_schema : Schema;
  task_codec : string;
  task_sync_interval : Z;
  task_metadata : Meta
}.

Arguments mkWriteTask {File Schema Meta} _ _ _ _ _ _.
Arguments task_part {File Schema Meta} _.
Arguments task_file {File Schema Meta} _.
Arguments task_schema {File Schema Meta} _.
Arguments task_codec {File Schema Meta} _.
Arguments task_sync_interval {File Schema Meta} _.
Arguments task_metadata {File Schema Meta} _.

(** The dictionary [dsk], built over [enumerate(files)]; [name] is the
    fresh name of the graph and [bname] the name of the bag. *)
Definition to_avro_dsk {File Schema Meta} (name bname : string)
    (files : list File) (schema : Schema) (codec : string)
    (sync_interval : Z) (metadata : Meta)
  : gmap (string * nat) (WriteTask File Schema Meta) :=
  foldl (fun dsk '(i, f) =>
           <[(name, i) :=
               mkWriteTask (bname, i) f schema codec sync_interval metadata]>
             dsk)
        ∅ (imap pair files).

(** ** Notions used to state the properties of [read_long] *)

(** The top bit of a byte, which [read_long] tests to go on. *)
Definition continues (b : byte) : bool :=
  negb (Z.land (byte_val b) 0x80 =? 0).

(** The number that the bytes of a varint denote: seven bits per byte,
    the first byte the lowest. *)
Fixpoint magnitude (bs : bytes) : Z :=
  match bs with
  | [] => 0
  | b :: bs' => Z.lor (Z.land (byte_val b) 0x7F) (Z.shiftl (magnitude bs') 7)
  end.

(** The exceptions that the header reader can raise: the assertion of
    the magic check, a [TypeError] and an [OverflowError]. *)
Definition header_error (e : exn) : Prop :=
  e = AssertionError "Magic avro bytes missing" \/
  (exists msg, e = TypeError msg) \/
  (exists msg, e = OverflowError msg).

(** An outcome that is a value or one of the exceptions [P]. *)
Definition outcome_in {A} (P : exn -> Prop) (r : outcome A) : Prop :=
  match r with
  | Ok _ => True
  | Raise e => P e
  | OutOfFuel => False
  end.

(** The file object with its buffer cut at [q]. *)
Definition truncate (q : nat) (fo : BytesIO) : BytesIO :=
  {| buf := take q (buf fo); pos := pos fo |}.

(** The file object at the same position of another buffer. *)
Definition rebuf (b2 : bytes) (fo : BytesIO) : BytesIO :=
  {| buf := b2; pos := pos fo |}.

(** A computation is stable when a successful run that stops before
    the end of the buffer is the same on any buffer that has the same
    bytes up to that position, and more. *)
Definition stable {A} (m : M A) : Prop :=
  forall fo a fo' b2,
    m fo = (Ok a, fo') ->
    (pos fo' < length (buf fo))%nat ->
    (pos fo' < length b2)%nat ->
    take (pos fo') b2 = take (pos fo') (buf fo) ->
    m (rebuf b2 fo) = (Ok a, rebuf b2 fo').

(** A computation is local when a successful run is the same on the
    buffer cut anywhere at or after the position it reached. *)
Definition local {A} (m : M A) : Prop :=
  forall fo a fo' q,
    m fo = (Ok a, fo') ->
    (pos fo' <= q)%nat ->
    m (truncate q fo) = (Ok a, truncate q fo').

(** * Properties *)

(** ** Running the monad *)

Lemma bind_ok {A B} (m : M A) (k : A -> M B) fo a fo1 :
  m fo = (Ok a, fo1) -> bind m k fo = k a fo1.
Proof. intros H. unfold bind. now rewrite H. Qed.

Lemma bind_raise {A B} (m : M A) (k : A -> M B) fo e fo1 :
  m fo = (Raise e, fo1) -> bind m k fo = (Raise e, fo1).
Proof. intros H. unfold bind. now rewrite H. Qed.

Lemma bind_ok_inv {A B} (m : M A) (k : A -> M B) fo b fo' :
  bind m k fo = (Ok b, fo') ->
  exists a fo1, m fo = (Ok a, fo1) /\ k a fo1 = (Ok b, fo').
Proof.
  unfold bind. destruct (m fo) as [[a | e |] fo1]; intros H;
    [eauto | discriminate | discriminate].
Qed.

Lemma read_eq size fo :
  in_ssize size = true ->
  read size fo =
  (Ok (read_data size fo),
   {| buf := buf fo; pos := (pos fo + length (read_data size fo))%nat |}).
Proof. intros Hsize. unfold read. now rewrite Hsize. Qed.

Lemma read_overflow size fo :
  in_ssize size = false ->
  read size fo =
  (Raise (OverflowError "cannot fit 'int' into an index-sized integer"), fo).
Proof. intros Hsize. unfold read. now rewrite Hsize. Qed.

Lemma read_ok_range size fo out fo' :
  read size fo = (Ok out, fo') -> in_ssize size = true.
Proof. unfold read. now destruct (in_ssize size). Qed.

Lemma read_inv size fo out fo' :
  read size fo = (Ok out, fo') ->
  out = read_data size fo /\
  buf fo' = buf fo /\ pos fo' = (pos fo + length out)%nat.
Proof.
  intros Hrun. rewrite (read_eq _ _ (read_ok_range _ _ _ _ Hrun)) in Hrun.
  injection Hrun as <- <-. auto.
Qed.

Lemma in_ssize_iff z : in_ssize z = true <-> - 2 ^ 63 <= z < 2 ^ 63.
Proof. unfold in_ssize. rewrite andb_true_iff, Z.leb_le, Z.ltb_lt. tauto. Qed.

Lemma in_ssize_short data : short data -> in_ssize (Z.of_nat (length data)) = true.
Proof. unfold short. intros H. apply in_ssize_iff. lia. Qed.

Lemma length_unread fo : length (unread fo) = (length (buf fo) - pos fo)%nat.
Proof. unfold unread. apply length_drop. Qed.

Lemma read_data_length_le size fo :
  (length (read_data size fo) <= length (unread fo))%nat.
Proof.
  unfold read_data. destruct (size <? 0); [lia | rewrite length_take; lia].
Qed.

(** ** [read_bytes] on lengths that the source cannot honour *)

(** C3 (as the code has it): when the varint decodes to a negative
    value, [read_bytes] makes no check of its own and never fails for
    the length being negative.  For a value that fits [Py_ssize_t],
    [fo.read] with that negative size returns every byte left in the
    source, and the stream ends up at the end of what was unread; for
    a value below [- 2 ^ 63], [fo.read] raises [OverflowError] and the
    stream stays after the varint. *)
Theorem read_bytes_negative_size fo v fo1 :
  read_long fo = (Ok v, fo1) ->
  v < 0 ->
  read_bytes fo =
  if - 2 ^ 63 <=? v then
    (Ok (unread fo1),
     {| buf := buf fo1; pos := (pos fo1 + length (unread fo1))%nat |})
  else
    (Raise (OverflowError "cannot fit 'int' into an index-sized integer"),
     fo1).
Proof.
  intros Hlong Hneg. unfold read_bytes.
  rewrite (bind_ok _ _ _ _ _ Hlong).
  destruct (Z.leb_spec (- 2 ^ 63) v) as [Hfit | Hbig].
  - rewrite read_eq by (apply in_ssize_iff; lia). unfold read_data.
    now replace (v <? 0) with true by (symmetry; apply Z.ltb_lt; lia).
  - apply read_overflow. unfold in_ssize.
    now replace (- 2 ^ 63 <=? v) with false by (symmetry; apply Z.leb_gt; lia).
Qed.

(** The claim of C3 fails on the three bytes [01 aa bb]: the varint is
    [-1] and [read_bytes] returns the two bytes that follow it. *)
Lemma read_bytes_negative_size_returns :
  read_long (mkBytesIO [x01; xaa; xbb] 0)
  = (Ok (-1), mkBytesIO [x01; xaa; xbb] 1) /\
  read_bytes (mkBytesIO [x01; xaa; xbb] 0)
  = (Ok [xaa; xbb], mkBytesIO [x01; xaa; xbb] 3).
Proof. split; reflexivity. Qed.

Lemma read_bytes_negative_size_witness :
  read_bytes (mkBytesIO [x01; xaa; xbb] 0)
  = if - 2 ^ 63 <=? -1 then
      (Ok (unread (mkBytesIO [x01; xaa; xbb] 1)),
       {| buf := [x01; xaa; xbb];
          pos := (1 + length (unread (mkBytesIO [x01; xaa; xbb] 1)))%nat |})
    else
      (Raise (OverflowError "cannot fit 'int' into an index-sized integer"),
       mkBytesIO [x01; xaa; xbb] 1).
Proof.
  apply (read_bytes_negative_size (mkBytesIO [x01; xaa; xbb] 0) (-1)
           (mkBytesIO [x01; xaa; xbb] 1)); [reflexivity | lia].
Defined.

(** C4 (as the code has it): when the decoded length exceeds the number
    of bytes left, [read_bytes] never fails for the data being short.
    For a length that fits [Py_ssize_t], it returns the bytes that are
    left, fewer than the length announced, and the stream ends up at
    their end; for a length of [2 ^ 63] or more, [fo.read] raises
    [OverflowError] and the stream stays after the varint. *)
Theorem read_bytes_short_read fo n fo1 :
  read_long fo = (Ok n, fo1) ->
  Z.of_nat (length (unread fo1)) < n ->
  read_bytes fo =
  if n <? 2 ^ 63 then
    (Ok (unread fo1),
     {| buf := buf fo1; pos := (pos fo1 + length (unread fo1))%nat |})
  else
    (Raise (OverflowError "cannot fit 'int' into an index-sized integer"),
     fo1).
Proof.
  intros Hlong Hshort. unfold read_bytes.
  rewrite (bind_ok _ _ _ _ _ Hlong).
  destruct (Z.ltb_spec n (2 ^ 63)) as [Hfit | Hbig].
  - rewrite read_eq by (apply in_ssize_iff; lia). unfold read_data.
    replace (n <? 0) with false by (symmetry; apply Z.ltb_ge; lia).
    now rewrite take_ge by lia.
  - apply read_overflow. unfold in_ssize.
    replace (n <? 2 ^ 63) with false by (symmetry; apply Z.ltb_ge; lia).
    apply andb_false_r.
Qed.

(** The claim of C4 fails on the two bytes [06 aa]: the length is [3],
    one byte is left, and [read_bytes] returns that byte. *)
Lemma read_bytes_short_read_returns :
  read_long (mkBytesIO [x06; xaa] 0) = (Ok 3, mkBytesIO [x06; xaa] 1) /\
  read_bytes (mkBytesIO [x06; xaa] 0) = (Ok [xaa], mkBytesIO [x06; xaa] 2).
Proof. split; reflexivity. Qed.

Lemma read_bytes_short_read_witness :
  read_bytes (mkBytesIO [x06; xaa] 0)
  = if 3 <? 2 ^ 63 then
      (Ok (unread (mkBytesIO [x06; xaa] 1)),
       {| buf := [x06; xaa];
          pos := (1 + length (unread (mkBytesIO [x06; xaa] 1)))%nat |})
    else
      (Raise (OverflowError "cannot fit 'int' into an index-sized integer"),
       mkBytesIO [x06; xaa] 1).
Proof.
  apply (read_bytes_short_read (mkBytesIO [x06; xaa] 0) 3
           (mkBytesIO [x06; xaa] 1)); [reflexivity | simpl; lia].
Defined.

(** Lengths beyond [Py_ssize_t]: ten bytes that decode to [- 2 ^ 64]
    and ten that decode to [2 ^ 63], each followed by two bytes of
    data; [fo.read] raises and the data is not read. *)
Example read_bytes_overflow :
  read_bytes
    (mkBytesIO [xff; xff; xff; xff; xff; xff; xff; xff; xff; x03; x7a; x7a] 0)
  = (Raise (OverflowError "cannot fit 'int' into an index-sized integer"),
     mkBytesIO [xff; xff; xff; xff; xff; xff; xff; xff; xff; x03; x7a; x7a]
               10) /\
  read_bytes
    (mkBytesIO [x80; x80; x80; x80; x80; x80; x80; x80; x80; x02; x7a; x7a] 0)
  = (Raise (OverflowError "cannot fit 'int' into an index-sized integer"),
     mkBytesIO [x80; x80; x80; x80; x80; x80; x80; x80; x80; x02; x7a; x7a]
               10).
Proof. split; reflexivity. Qed.

(** ** The magic marker *)

(** C7: when the first four bytes read are not the magic marker,
    [read_header] raises the assertion error, and the source is left
    just after the bytes read for the marker: nothing of the metadata
    was read. *)
Theorem read_header_bad_magic fo :
  take 4 (unread fo) <> MAGIC ->
  read_header fo =
  (Raise (AssertionError "Magic avro bytes missing"),
   {| buf := buf fo; pos := (pos fo + length (take 4 (unread fo)))%nat |}).
Proof.
  intros Hbad. unfold read_header.
  rewrite (bind_ok _ _ _ _ _ (read_eq (Z.of_nat (length MAGIC)) fo eq_refl)). simpl.
  apply bind_raise. unfold assert_.
  now rewrite bool_decide_eq_false_2.
Qed.

Lemma read_header_bad_magic_witness :
  read_header (mkBytesIO [x4f; x62; x6a; x02; x00] 0)
  = (Raise (AssertionError "Magic avro bytes missing"),
     mkBytesIO [x4f; x62; x6a; x02; x00] 4).
Proof.
  apply (read_header_bad_magic (mkBytesIO [x4f; x62; x6a; x02; x00] 0)).
  discriminate.
Defined.

(** ** [read_chunk] *)

Lemma startswith_MAGIC chunk :
  startswith chunk MAGIC = bool_decide (take 4 chunk = MAGIC).
Proof. reflexivity. Qed.

(** C6: the bytes that [read_chunk] hands to the decoder are the buffer
    of [read_block] itself when its first four bytes are the magic
    marker, and the header bytes followed by the buffer otherwise. *)
Theorem read_chunk_reconstructs {OpenFile Rec : Type}
    (read_block : OpenFile -> Z -> Z -> bytes -> outcome bytes)
    (iter_avro : BytesIO -> outcome (list Rec))
    (fobj : OpenFile) (off l : Z) (head : Header) (chunk : bytes) :
  read_block fobj off l (sync head) = Ok chunk ->
  (take 4 chunk = MAGIC ->
   read_chunk read_block iter_avro fobj off l head
   = iter_avro (mkBytesIO chunk 0)) /\
  (take 4 chunk <> MAGIC ->
   read_chunk read_block iter_avro fobj off l head
   = iter_avro (mkBytesIO (head_bytes head ++ chunk) 0)).
Proof.
  intros Hblock. unfold read_chunk. rewrite Hblock, startswith_MAGIC.
  split; intros Hmagic.
  - now rewrite bool_decide_eq_true_2.
  - now rewrite bool_decide_eq_false_2.
Qed.

Lemma read_chunk_reconstructs_witness :
  (take 4 sample_data = MAGIC ->
   read_chunk sample_read_block sample_iter_avro sample_file 26 19
              sample_header
   = sample_iter_avro (mkBytesIO sample_data 0)) /\
  (take 4 sample_data <> MAGIC ->
   read_chunk sample_read_block sample_iter_avro sample_file 26 19
              sample_header
   = sample_iter_avro
       (mkBytesIO (head_bytes sample_header ++ sample_data) 0)).
Proof.
  apply (read_chunk_reconstructs sample_read_block sample_iter_avro
           sample_file 26 19 sample_header sample_data).
  reflexivity.
Defined.

(** C9: when [read_block] returns an empty buffer, [read_chunk] does
    not fail on it: whatever the decoder, it hands the decoder the
    header bytes alone, a container of zero blocks, and returns what
    the decoder returns; with a decoder that yields no record for such
    a container, that is the empty list of records. *)
Theorem read_chunk_empty_window {OpenFile Rec : Type}
    (read_block : OpenFile -> Z -> Z -> bytes -> outcome bytes)
    (iter_avro : BytesIO -> outcome (list Rec))
    (fobj : OpenFile) (off l : Z) (head : Header) :
  read_block fobj off l (sync head) = Ok [] ->
  read_chunk read_block iter_avro fobj off l head
  = iter_avro (mkBytesIO (head_bytes head) 0) /\
  (iter_avro (mkBytesIO (head_bytes head) 0) = Ok [] ->
   read_chunk read_block iter_avro fobj off l head = Ok []).
Proof.
  intros Hblock. unfold read_chunk.
  rewrite Hblock, startswith_MAGIC, bool_decide_eq_false_2 by discriminate.
  cbn [negb]. rewrite app_nil_r. now split.
Qed.

Lemma read_chunk_empty_window_witness :
  read_chunk sample_read_block sample_iter_avro sample_file 45 10
             sample_header
  = sample_iter_avro (mkBytesIO (head_bytes sample_header) 0) /\
  (sample_iter_avro (mkBytesIO (head_bytes sample_header) 0) = Ok [] ->
   read_chunk sample_read_block sample_iter_avro sample_file 45 10
              sample_header = Ok []).
Proof.
  apply (read_chunk_empty_window sample_read_block sample_iter_avro
           sample_file 45 10 sample_header); reflexivity.
Defined.

(** The sample decoder does yield no record on the header bytes of
    the sample file, and one record for each byte that follows them. *)
Example sample_iter_avro_header :
  sample_iter_avro (mkBytesIO (head_bytes sample_header) 0) = Ok [] /\
  sample_iter_avro (mkBytesIO (head_bytes sample_header ++ [x02; x2a]) 0)
  = Ok [x02; x2a].
Proof. split; reflexivity. Qed.

(** ** The partition plan *)

Lemma zip_repeat_length {A B} (l : list A) (b : B) :
  zip l (repeat b (length l)) = map (fun x => (x, b)) l.
Proof. induction l as [| x l IH]; simpl; [reflexivity | now rewrite IH]. Qed.

Lemma range_len_forward size step :
  0 <= size -> 0 < step -> range_len 0 size step = (size + step - 1) / step.
Proof.
  intros Hsize Hstep. unfold range_len.
  replace (0 <? step) with true by (symmetry; apply Z.ltb_lt; lia).
  destruct (Z.ltb_spec 0 size).
  - replace (size + step - 1) with (size - 0 - 1 + 1 * step) by lia.
    rewrite Z.div_add by lia. reflexivity.
  - replace size with 0 by lia. symmetry. apply Z.div_small. lia.
Qed.

Lemma total_length_const (f : nat -> Z) (b : Z) (ks : list nat) :
  total_length (map (fun k => (f k, b)) ks) = Z.of_nat (length ks) * b.
Proof.
  unfold total_length.
  induction ks as [| k ks IH]; [reflexivity |].
  cbn [map fmap list_fmap foldr length snd] in *. rewrite IH. lia.
Qed.

Lemma windows_eq size blocksize :
  0 <= size -> 0 < blocksize ->
  windows size blocksize
  = Ok (map (fun k => (Z.of_nat k * blocksize, blocksize))
            (seq 0 (Z.to_nat ((size + blocksize - 1) / blocksize)))).
Proof.
  intros Hsize Hstep. unfold windows, file_offsets_lengths.
  replace (blocksize =? 0) with false by (symmetry; apply Z.eqb_neq; lia).
  rewrite zip_repeat_length. unfold py_range.
  rewrite range_len_forward by lia.
  rewrite map_map. reflexivity.
Qed.

(** C1 (as the code has it): for a file of size [S >= 0] and a block
    size [B > 0] the plan is the ordered list of the windows
    [(0, B), (B, B), (2B, B), ...], one for each multiple of [B] below
    [S]: they are contiguous, they do not overlap, every one of them
    has length [B] (the last one is not clipped), so that they cover
    [[0, S)] and their lengths sum to the least multiple of [B] that is
    at least [S]; for [S = 0] there is no window. *)
Theorem windows_cover (S B : Z) :
  0 <= S -> 0 < B ->
  exists n : nat,
    windows S B = Ok (map (fun k => (Z.of_nat k * B, B)) (seq 0 n)) /\
    total_length (map (fun k => (Z.of_nat k * B, B)) (seq 0 n))
    = Z.of_nat n * B /\
    Z.of_nat n * B - B < S <= Z.of_nat n * B /\
    (S = 0 -> n = 0%nat).
Proof.
  intros HS HB. exists (Z.to_nat ((S + B - 1) / B)).
  assert (Hn : 0 <= (S + B - 1) / B) by (apply Z.div_pos; lia).
  split; [now apply windows_eq |].
  split; [now rewrite total_length_const, length_seq |].
  rewrite Z2Nat.id by lia.
  pose proof (Z.mul_div_le (S + B - 1) B HB).
  pose proof (Z.mul_succ_div_gt (S + B - 1) B HB).
  split; [lia |].
  intros ->. simpl. now rewrite Z.div_small by lia.
Qed.

Lemma windows_cover_witness :
  exists n : nat,
    windows 5 2 = Ok (map (fun k => (Z.of_nat k * 2, 2)) (seq 0 n)) /\
    total_length (map (fun k => (Z.of_nat k * 2, 2)) (seq 0 n))
    = Z.of_nat n * 2 /\
    Z.of_nat n * 2 - 2 < 5 <= Z.of_nat n * 2 /\
    (5 = 0 -> n = 0%nat).
Proof. apply (windows_cover 5 2); lia. Defined.

(** The claim of C1 fails for a file of 5 bytes and blocks of 2: the
    last window is [(4, 2)], not [(4, 1)], and the lengths sum to 6. *)
Lemma windows_last_not_clipped :
  windows 5 2 = Ok [(0, 2); (2, 2); (4, 2)] /\
  total_length [(0, 2); (2, 2); (4, 2)] <> 5.
Proof. split; [reflexivity | discriminate]. Qed.

(** ** Bytes and bits *)

Lemma byte_val_range b : 0 <= byte_val b < 256.
Proof.
  unfold byte_val. pose proof (Byte.to_N_bounded b). lia.
Qed.

Lemma byte_val_of_Z z : 0 <= z < 256 -> byte_val (byte_of_Z z) = z.
Proof.
  intros Hz. unfold byte_val, byte_of_Z.
  destruct (Byte.of_N (Z.to_N z)) as [b |] eqn:Hb.
  - apply Byte.to_of_N in Hb. rewrite Hb. lia.
  - apply Byte.of_N_None_iff in Hb. lia.
Qed.

Lemma land_lnot_127 m : Z.land m (Z.lnot 0x7F) = Z.shiftl (Z.shiftr m 7) 7.
Proof.
  rewrite <- Z.ldiff_land. change 0x7F with (Z.ones 7).
  now rewrite Z.ldiff_ones_r by lia.
Qed.

Lemma small_datum m :
  0 <= m -> (Z.land m (Z.lnot 0x7F) =? 0) = (m <? 0x80).
Proof.
  intros Hm. rewrite land_lnot_127, Z.shiftl_mul_pow2, Z.shiftr_div_pow2 by lia.
  change (2 ^ 7) with 128.
  pose proof (Z.div_pos m 128 Hm ltac:(lia)).
  destruct (Z.ltb_spec m 128).
  - rewrite Z.div_small by lia. reflexivity.
  - apply Z.eqb_neq. pose proof (Z.div_le_lower_bound m 128 1). lia.
Qed.

Lemma low_or_high m : Z.lor (Z.land m 0x7F) (Z.shiftl (Z.shiftr m 7) 7) = m.
Proof.
  rewrite <- land_lnot_127, <- Z.ldiff_land, Z.lor_comm.
  apply Z.lor_ldiff_and.
Qed.

Lemma land_127_range m : 0 <= Z.land m 0x7F < 128.
Proof.
  change 0x7F with (Z.ones 7). rewrite Z.land_ones by lia.
  apply Z.mod_pos_bound. lia.
Qed.

Lemma last_byte m :
  0 <= m < 128 -> Z.land m 0x7F = m /\ Z.land m 0x80 = 0.
Proof.
  intros Hm.
  assert (Hlow : Z.land m 0x7F = m).
  { change 0x7F with (Z.ones 7). rewrite Z.land_ones by lia.
    apply Z.mod_small. lia. }
  split; [exact Hlow |].
  rewrite <- Hlow, <- Z.land_assoc. apply Z.land_0_r.
Qed.

Lemma continuation_byte m :
  128 <= Z.lor (Z.land m 0x7F) 0x80 < 256 /\
  Z.land (Z.lor (Z.land m 0x7F) 0x80) 0x7F = Z.land m 0x7F /\
  Z.land (Z.lor (Z.land m 0x7F) 0x80) 0x80 = 128.
Proof.
  pose proof (land_127_range m) as Hr.
  assert (Hdisj : Z.land (Z.land m 0x7F) 0x80 = 0).
  { rewrite <- Z.land_assoc. apply Z.land_0_r. }
  split; [| split].
  - rewrite <- Z.lxor_lor, <- Z.add_nocarry_lxor by exact Hdisj. lia.
  - rewrite Z.land_lor_distr_l, <- Z.land_assoc. simpl (Z.land 0x7F 0x7F).
    simpl (Z.land 0x80 0x7F). apply Z.lor_0_r.
  - rewrite Z.land_lor_distr_l, Hdisj. reflexivity.
Qed.

(** ** Zig-zag *)

Lemma zigzag_nonneg n : 0 <= n < 2 ^ 63 -> zigzag n = 2 * n.
Proof.
  intros Hn. unfold zigzag.
  rewrite Z.shiftr_div_pow2, Z.div_small, Z.lxor_0_r, Z.shiftl_mul_pow2 by lia.
  lia.
Qed.

Lemma zigzag_neg n : - 2 ^ 63 <= n < 0 -> zigzag n = - 2 * n - 1.
Proof.
  intros Hn. unfold zigzag.
  rewrite Z.shiftr_div_pow2 by lia.
  replace (n / 2 ^ 63) with (-1).
  - rewrite Z.lxor_m1_r, Z.shiftl_mul_pow2 by lia. unfold Z.lnot. lia.
  - apply Z.div_unique with (r := n + 2 ^ 63); lia.
Qed.

Lemma zigzag_range n : is_long n -> 0 <= zigzag n < 2 ^ 64.
Proof.
  unfold is_long. intros Hn. destruct (Z.lt_ge_cases n 0).
  - rewrite zigzag_neg by lia. lia.
  - rewrite zigzag_nonneg by lia. lia.
Qed.

(** The last line of [read_long] undoes [zigzag]. *)
Lemma unzigzag_zigzag n :
  is_long n ->
  Z.lxor (Z.shiftr (zigzag n) 1) (- Z.land (zigzag n) 1) = n.
Proof.
  unfold is_long. intros Hn.
  change 1 with (Z.ones 1) at 2. rewrite Z.land_ones, Z.shiftr_div_pow2 by lia.
  change (2 ^ 1) with 2.
  destruct (Z.lt_ge_cases n 0).
  - rewrite zigzag_neg by lia.
    replace ((- 2 * n - 1) / 2) with (- n - 1)
      by (apply Z.div_unique with (r := 1); lia).
    replace ((- 2 * n - 1) mod 2) with 1
      by (apply Z.mod_unique with (q := - n - 1); lia).
    rewrite Z.lxor_m1_r. unfold Z.lnot. lia.
  - rewrite zigzag_nonneg by lia.
    replace (2 * n / 2) with n by (apply Z.div_unique with (r := 0); lia).
    replace (2 * n mod 2) with 0 by (apply Z.mod_unique with (q := n); lia).
    apply Z.lxor_0_r.
Qed.

(** ** Reading what the writer wrote *)

Lemma unread_advance fo enc rest :
  unread fo = enc ++ rest ->
  unread {| buf := buf fo; pos := (pos fo + length enc)%nat |} = rest.
Proof.
  unfold unread. simpl. intros H.
  now rewrite <- drop_drop, H, drop_app_length.
Qed.

Lemma consumes_ret {A} (a : A) : consumes (ret a) [] a.
Proof.
  intros [b p] rest _. unfold ret. simpl. now rewrite Nat.add_0_r.
Qed.

Lemma consumes_bind {A B} (m : M A) (k : A -> M B) e1 e2 a b :
  consumes m e1 a -> consumes (k a) e2 b -> consumes (bind m k) (e1 ++ e2) b.
Proof.
  intros Hm Hk fo rest Hun. rewrite <- app_assoc in Hun.
  rewrite (bind_ok _ _ _ _ _ (Hm _ _ Hun)).
  rewrite (Hk _ _ (unread_advance _ _ _ Hun)). simpl.
  now rewrite length_app, Nat.add_assoc.
Qed.

Lemma consumes_read (size : Z) (data : bytes) :
  size = Z.of_nat (length data) -> in_ssize size = true ->
  consumes (read size) data data.
Proof.
  intros -> Hfit fo rest Hun. rewrite read_eq by exact Hfit. unfold read_data.
  replace (Z.of_nat (length data) <? 0) with false
    by (symmetry; apply Z.ltb_ge; lia).
  now rewrite Nat2Z.id, Hun, take_app_length.
Qed.

Lemma bind_ord {B} (b : byte) (k : Z -> M B) fo :
  bind (ord [b]) k fo = k (byte_val b) fo.
Proof. reflexivity. Qed.

Lemma read_long_loop_eq fuel b n shift :
  read_long_loop fuel b n shift =
  if Z.land b 0x80 =? 0 then ret n
  else
    match fuel with
    | O => fun fo => (OutOfFuel, fo)
    | S fuel' =>
        c <- read 1 ;;
        b' <- ord c ;;
        read_long_loop fuel' b' (Z.lor n (Z.shiftl (Z.land b' 0x7F) shift))
                       (shift + 7)
    end.
Proof. destruct fuel; reflexivity. Qed.

Lemma varint_eq f m :
  0 <= m ->
  varint (S f) m =
  if m <? 0x80 then [byte_of_Z m]
  else byte_of_Z (Z.lor (Z.land m 0x7F) 0x80) :: varint f (Z.shiftr m 7).
Proof. intros Hm. simpl. now rewrite small_datum. Qed.

(** The loop of [read_long], entered after a byte with its top bit
    set, reads the rest of a varint into the bits above [shift]. *)
Lemma read_long_loop_varint f :
  forall m fuel b acc shift fo rest,
    0 <= m < 2 ^ (7 * Z.of_nat (S f)) ->
    Z.land b 0x80 <> 0 ->
    0 <= shift ->
    (length (varint (S f) m) <= fuel)%nat ->
    unread fo = varint (S f) m ++ rest ->
    read_long_loop fuel b acc shift fo =
    (Ok (Z.lor acc (Z.shiftl m shift)),
     {| buf := buf fo;
        pos := (pos fo + length (varint (S f) m))%nat |}).
Proof.
  induction f as [| f IH]; intros m fuel b acc shift fo rest Hm Hb Hshift
    Hfuel Hun;
    rewrite varint_eq in * by lia;
    rewrite read_long_loop_eq;
    (replace (Z.land b 0x80 =? 0) with false by (symmetry; now apply Z.eqb_neq));
    destruct (Z.ltb_spec m 0x80) as [Hsmall | Hbig].
  1, 3:
    destruct fuel as [| fuel]; [simpl in Hfuel; lia |];
    rewrite (bind_ok _ _ _ _ _ (consumes_read 1 [byte_of_Z m] eq_refl eq_refl _ _ Hun));
    rewrite bind_ord, read_long_loop_eq, byte_val_of_Z by lia;
    destruct (last_byte m ltac:(lia)) as [-> ->]; reflexivity.
  - change (2 ^ (7 * Z.of_nat 1)) with 128 in Hm. lia.
  - destruct fuel as [| fuel]; [simpl in Hfuel; lia |].
    destruct (continuation_byte m) as (Hrange & Hlow & Hhigh).
    rewrite (bind_ok _ _ _ _ _ (consumes_read 1 [_] eq_refl eq_refl _ _ Hun)).
    rewrite bind_ord, byte_val_of_Z, Hlow by lia.
    rewrite (IH (Z.shiftr m 7) fuel _ _ (shift + 7) _ rest).
    + cbn [buf pos length]. f_equal; [| f_equal; lia]. f_equal.
      rewrite <- Z.lor_assoc, (Z.add_comm shift 7).
      rewrite <- (Z.shiftl_shiftl _ 7 shift) by lia.
      now rewrite <- Z.shiftl_lor, low_or_high.
    + rewrite Z.shiftr_div_pow2 by lia. split; [apply Z.div_pos; lia |].
      apply Z.div_lt_upper_bound; [lia |].
      rewrite <- Z.pow_add_r by lia.
      now replace (7 + 7 * Z.of_nat (S f)) with (7 * Z.of_nat (S (S f))) by lia.
    + rewrite Hhigh. discriminate.
    + lia.
    + cbn [length] in Hfuel. lia.
    + exact (unread_advance fo [_] _ Hun).
Qed.

Lemma bind_ret {A B} (a : A) (k : A -> M B) fo : bind (ret a) k fo = k a fo.
Proof. reflexivity. Qed.

Lemma bind_assert_true {B} msg (k : unit -> M B) fo :
  bind (assert_ true msg) k fo = k tt fo.
Proof. reflexivity. Qed.

Lemma bind_tell {B} (k : Z -> M B) fo :
  bind tell k fo = k (Z.of_nat (pos fo)) fo.
Proof. reflexivity. Qed.

Lemma bind_seek_start {B} (k : Z -> M B) fo :
  bind (seek 0) k fo = k 0 {| buf := buf fo; pos := 0 |}.
Proof. reflexivity. Qed.

Lemma bind_fuel_here {B} (k : nat -> M B) fo :
  bind fuel_here k fo = k (S (length (unread fo))) fo.
Proof. reflexivity. Qed.

Lemma length_varint_pos f m : (1 <= length (varint (S f) m))%nat.
Proof. simpl. destruct (_ =? _); simpl; lia. Qed.

(** [read_long] on a varint: the magnitude is rebuilt, then the
    zig-zag is undone. *)
Lemma read_long_varint f m :
  0 <= m < 2 ^ (7 * Z.of_nat (S f)) ->
  consumes read_long (varint (S f) m)
           (Z.lxor (Z.shiftr m 1) (- Z.land m 1)).
Proof.
  intros Hm fo rest Hun. unfold read_long.
  rewrite varint_eq in * by lia.
  destruct (Z.ltb_spec m 0x80) as [Hsmall | Hbig].
  - rewrite (bind_ok _ _ _ _ _ (consumes_read 1 [_] eq_refl eq_refl _ _ Hun)).
    rewrite bind_ord, bind_fuel_here, byte_val_of_Z by lia.
    destruct (last_byte m ltac:(lia)) as [Hlow Hhigh].
    rewrite Hlow. unfold bind at 1. rewrite read_long_loop_eq, Hhigh.
    reflexivity.
  - destruct f as [| f];
      [change (2 ^ (7 * Z.of_nat 1)) with 128 in Hm; lia |].
    destruct (continuation_byte m) as (Hrange & Hlow & Hhigh).
    rewrite (bind_ok _ _ _ _ _ (consumes_read 1 [_] eq_refl eq_refl _ _ Hun)).
    rewrite bind_ord, bind_fuel_here, byte_val_of_Z, Hlow by lia.
    pose proof (unread_advance fo [_] _ Hun) as Hun'.
    unfold bind at 1.
    rewrite (read_long_loop_varint f (Z.shiftr m 7) _ _ _ 7 _ rest).
    + rewrite low_or_high. cbn [buf pos length]. unfold ret.
      do 2 f_equal. lia.
    + rewrite Z.shiftr_div_pow2 by lia. split; [apply Z.div_pos; lia |].
      apply Z.div_lt_upper_bound; [lia |].
      rewrite <- Z.pow_add_r by lia.
      now replace (7 + 7 * Z.of_nat (S f)) with (7 * Z.of_nat (S (S f))) by lia.
    + rewrite Hhigh. discriminate.
    + lia.
    + rewrite Hun', length_app. lia.
    + exact Hun'.
Qed.

Lemma consumes_read_long n : is_long n -> consumes read_long (write_long n) n.
Proof.
  intros Hn. unfold write_long.
  rewrite <- (unzigzag_zigzag n Hn) at 2.
  apply read_long_varint. pose proof (zigzag_range n Hn).
  change (2 ^ (7 * Z.of_nat 10)) with (2 ^ 70). lia.
Qed.

(** C5: a long written as a zig-zag varint is read back by [read_long]:
    on a source whose unread bytes begin with the encoding of a 64-bit
    signed integer [n], [read_long] returns [n] and leaves the source
    just after the encoding. *)
Theorem read_long_write_long (n : Z) (fo : BytesIO) (rest : bytes) :
  is_long n ->
  unread fo = write_long n ++ rest ->
  read_long fo =
  (Ok n, {| buf := buf fo; pos := (pos fo + length (write_long n))%nat |}).
Proof. intros Hn Hun. exact (consumes_read_long n Hn fo rest Hun). Qed.

Lemma read_long_write_long_witness :
  read_long (mkBytesIO (x4f :: write_long (- 2 ^ 63) ++ [x07]) 1) =
  (Ok (- 2 ^ 63),
   {| buf := x4f :: write_long (- 2 ^ 63) ++ [x07];
      pos := (1 + length (write_long (- 2 ^ 63)))%nat |}).
Proof.
  apply (read_long_write_long (- 2 ^ 63)
           (mkBytesIO (x4f :: write_long (- 2 ^ 63) ++ [x07]) 1) [x07]).
  - unfold is_long. lia.
  - reflexivity.
Defined.

(** The values named in the claim: 0, -1, the least and the greatest
    long. *)
Example read_long_corner_cases :
  map (fun n => fst (read_long (mkBytesIO (write_long n) 0)))
      [0; -1; 1; - 2 ^ 63; 2 ^ 63 - 1]
  = map Ok [0; -1; 1; - 2 ^ 63; 2 ^ 63 - 1].
Proof. vm_compute. reflexivity. Qed.

(** ** Reading a header laid out by the writer *)

Lemma consumes_read_bytes data :
  short data -> consumes read_bytes (write_bytes data) data.
Proof.
  intros Hshort. unfold read_bytes, write_bytes.
  apply consumes_bind with (a := Z.of_nat (length data)).
  - apply consumes_read_long. unfold is_long, short in *. lia.
  - apply consumes_read; [reflexivity | now apply in_ssize_short].
Qed.

Lemma consumes_entry kv :
  short kv.1 /\ short kv.2 ->
  consumes (read_bytes ;;; read_bytes ;;; ret tt) (write_entry kv) tt.
Proof.
  intros [Hk Hv]. unfold write_entry.
  apply consumes_bind with (a := kv.1); [now apply consumes_read_bytes |].
  rewrite <- (app_nil_r (write_bytes kv.2)).
  apply consumes_bind with (a := kv.2); [now apply consumes_read_bytes |].
  apply consumes_ret.
Qed.

(** The [for] loop reads one entry for each index, whatever the
    indices. *)
Lemma consumes_entries {I} (entries : list (bytes * bytes)) :
  Forall (fun kv => short kv.1 /\ short kv.2) entries ->
  forall indices : list I,
    length indices = length entries ->
    consumes (for_ indices (fun _ => read_bytes ;;; read_bytes ;;; ret tt))
             (flat_map write_entry entries) tt.
Proof.
  induction 1 as [| kv entries Hkv _ IH]; intros [| i indices] Hlen;
    try discriminate.
  - apply consumes_ret.
  - cbn [for_ flat_map].
    apply consumes_bind with (a := tt); [now apply consumes_entry |].
    apply IH. now injection Hlen.
Qed.

Lemma length_py_range_count n :
  0 <= n -> length (py_range 0 n 1) = Z.to_nat n.
Proof.
  intros Hn. unfold py_range.
  rewrite length_map, length_seq, range_len_forward by lia.
  f_equal. replace (n + 1 - 1) with n by lia. apply Z.div_1_r.
Qed.

Lemma read_header_loop_eq fuel :
  read_header_loop (S fuel) =
  (n_keys <- read_long ;;
   if n_keys =? 0 then ret tt
   else
     for_ (py_range 0 n_keys 1)
          (fun _ => read_bytes ;;; read_bytes ;;; ret tt) ;;;
     read_header_loop fuel).
Proof. reflexivity. Qed.

Lemma consumes_blocks blocks :
  Forall wf_block blocks ->
  forall fuel,
    (length blocks < fuel)%nat ->
    consumes (read_header_loop fuel)
             (flat_map write_block blocks ++ write_long 0) tt.
Proof.
  induction 1 as [| entries blocks (Hne & Hcount & Hentries) _ IH];
    intros [| fuel] Hfuel; try (simpl in Hfuel; lia);
    rewrite read_header_loop_eq.
  - cbn [flat_map app]. rewrite <- (app_nil_r (write_long 0)).
    apply consumes_bind with (a := 0).
    + apply consumes_read_long. unfold is_long. lia.
    + apply consumes_ret.
  - cbn [flat_map]. unfold write_block at 1. rewrite <- !app_assoc.
    apply consumes_bind with (a := Z.of_nat (length entries)).
    + apply consumes_read_long. unfold is_long. lia.
    + replace (Z.of_nat (length entries) =? 0) with false.
      * apply consumes_bind with (a := tt).
        -- apply consumes_entries; [exact Hentries |].
           rewrite length_py_range_count by lia. apply Nat2Z.id.
        -- apply IH. simpl in Hfuel. lia.
      * symmetry. apply Z.eqb_neq. destruct entries; [congruence | simpl; lia].
Qed.

Lemma length_flat_map_write_block blocks :
  (length blocks <= length (flat_map write_block blocks))%nat.
Proof.
  induction blocks as [| entries blocks IH]; [reflexivity |].
  cbn [flat_map length]. rewrite length_app. unfold write_block at 1.
  rewrite length_app. unfold write_long.
  pose proof (length_varint_pos 9 (zigzag (Z.of_nat (length entries)))). lia.
Qed.

Lemma unread_start data : unread (mkBytesIO data 0) = data.
Proof. reflexivity. Qed.

(** On a source that holds a header laid out by the writer, followed by
    anything, [read_header] returns the sync token, the length of the
    header and its bytes, with an empty metadata mapping, and leaves
    the source just after the header. *)
Lemma read_header_write_header blocks sync_token data :
  wf_header blocks sync_token ->
  read_header (mkBytesIO (write_header blocks sync_token ++ data) 0) =
  (Ok {| meta := ∅; sync := sync_token;
         header_size := Z.of_nat (length (write_header blocks sync_token));
         head_bytes := write_header blocks sync_token |},
   mkBytesIO (write_header blocks sync_token ++ data)
             (length (write_header blocks sync_token))).
Proof.
  intros (Hblocks & Hsync & Hshort). unfold read_header.
  set (body := flat_map write_block blocks ++ write_long 0).
  assert (Hhdr : write_header blocks sync_token ++ data
                 = MAGIC ++ body ++ sync_token ++ data).
  { unfold write_header, body. now rewrite <- !app_assoc. }
  assert (Hlen : length (write_header blocks sync_token)
                 = (length MAGIC + length body + length sync_token)%nat).
  { unfold write_header, body. rewrite !length_app. lia. }
  set (buffer := write_header blocks sync_token ++ data) in *.
  rewrite (bind_ok _ _ _ _ _
             (consumes_read _ MAGIC eq_refl eq_refl (mkBytesIO buffer 0) _ Hhdr)).
  rewrite bool_decide_eq_true_2 by reflexivity.
  rewrite bind_assert_true, bind_fuel_here.
  pose proof (unread_advance (mkBytesIO buffer 0) MAGIC _ Hhdr) as Hun1.
  cbn [buf pos] in *. rewrite Hun1 at 1.
  assert (Hfuel : (length blocks < S (length (body ++ sync_token ++ data)))%nat).
  { rewrite !length_app. pose proof (length_flat_map_write_block blocks).
    unfold body. rewrite length_app. lia. }
  rewrite (bind_ok _ _ _ _ _
             (consumes_blocks blocks Hblocks _ Hfuel _ _ Hun1)).
  pose proof (unread_advance _ body _ Hun1) as Hun2.
  cbn [buf pos] in *.
  rewrite (bind_ok _ _ _ _ _ (consumes_read SYNC_SIZE sync_token
                                (eq_sym Hsync) eq_refl _ _ Hun2)).
  rewrite bind_tell, bind_seek_start. cbn [buf pos].
  rewrite <- Nat.add_assoc, Nat.add_0_l, Nat.add_assoc, <- Hlen.
  rewrite (bind_ok _ _ _ _ _
             (consumes_read _ (write_header blocks sync_token) eq_refl
                (in_ssize_short _ Hshort) (mkBytesIO buffer 0) data eq_refl)).
  reflexivity.
Qed.

(** ** What every run leaves untouched *)

Lemma steady_ret {A} (a : A) : steady (ret a).
Proof. intros fo r fo' [= <- <-]. auto. Qed.

Lemma steady_raise {A} e : steady (@raise A e).
Proof. intros fo r fo' [= <- <-]. auto. Qed.

Lemma steady_bind {A B} (m : M A) (k : A -> M B) :
  steady m -> (forall a, steady (k a)) -> steady (bind m k).
Proof.
  intros Hm Hk fo r fo' Hrun. unfold bind in Hrun.
  destruct (m fo) as [[a | e |] fo1] eqn:E; apply Hm in E as (Eb & Ep & Ei).
  - apply Hk in Hrun as (-> & ? & ?). split; [exact Eb |]. split; [lia | auto].
  - injection Hrun as <- <-. auto.
  - injection Hrun as <- <-. auto.
Qed.

Lemma steady_read size : steady (read size).
Proof.
  intros fo r fo' Hrun.
  destruct (in_ssize size) eqn:Hfit;
    [rewrite read_eq in Hrun by exact Hfit
    | rewrite read_overflow in Hrun by exact Hfit; injection Hrun as <- <-;
      now auto].
  injection Hrun as <- <-.
  cbn [buf pos]. split; [reflexivity |]. split; [lia |].
  unfold in_bounds. cbn [buf pos].
  pose proof (read_data_length_le size fo). rewrite length_unread in *. lia.
Qed.

Lemma steady_ord c : steady (ord c).
Proof.
  destruct c as [| b [| b' c]]; simpl;
    first [apply steady_ret | apply steady_raise].
Qed.

Lemma steady_assert cond msg : steady (assert_ cond msg).
Proof.
  destruct cond; simpl; [apply steady_ret | apply steady_raise].
Qed.

Lemma steady_fuel_here : steady fuel_here.
Proof. intros fo r fo' [= <- <-]. auto. Qed.

Lemma steady_tell : steady tell.
Proof. intros fo r fo' [= <- <-]. auto. Qed.

Lemma steady_read_long_loop fuel :
  forall b n shift, steady (read_long_loop fuel b n shift).
Proof.
  induction fuel as [| fuel IH]; intros b n shift;
    rewrite read_long_loop_eq; destruct (_ =? _); try apply steady_ret.
  - intros fo r fo' [= <- <-]. auto.
  - apply steady_bind; [apply steady_read | intros c].
    apply steady_bind; [apply steady_ord | intros b']. apply IH.
Qed.

Lemma steady_read_long : steady read_long.
Proof.
  unfold read_long.
  apply steady_bind; [apply steady_read | intros c].
  apply steady_bind; [apply steady_ord | intros b].
  apply steady_bind; [apply steady_fuel_here | intros fuel].
  apply steady_bind; [apply steady_read_long_loop | intros n].
  apply steady_ret.
Qed.

Lemma steady_read_bytes : steady read_bytes.
Proof.
  unfold read_bytes.
  apply steady_bind; [apply steady_read_long | intros n]. apply steady_read.
Qed.

Lemma steady_for {A} (l : list A) (body : A -> M unit) :
  (forall x, steady (body x)) -> steady (for_ l body).
Proof.
  intros Hbody. induction l as [| x l IH]; simpl; [apply steady_ret |].
  apply steady_bind; auto.
Qed.

Lemma steady_entry : steady (read_bytes ;;; read_bytes ;;; ret tt).
Proof.
  apply steady_bind; [apply steady_read_bytes | intros _].
  apply steady_bind; [apply steady_read_bytes | intros _].
  apply steady_ret.
Qed.

Lemma steady_read_header_loop fuel : steady (read_header_loop fuel).
Proof.
  induction fuel as [| fuel IH].
  - intros fo r fo' [= <- <-]. auto.
  - rewrite read_header_loop_eq.
    apply steady_bind; [apply steady_read_long | intros n_keys].
    destruct (_ =? _); [apply steady_ret |].
    apply steady_bind; [| intros _; exact IH].
    apply steady_for. intros _. apply steady_entry.
Qed.

(** ** What a successful [read_header] returns *)

Lemma assert_ok_inv cond msg fo u fo' :
  assert_ cond msg fo = (Ok u, fo') -> cond = true /\ fo' = fo.
Proof. destruct cond; simpl; [intros [= _ <-]; auto | discriminate]. Qed.

(** A successful run read the magic marker at the stream position, then
    metadata up to some position [p], then the sync token at [p]; the
    header bytes are the buffer up to the end of the token, where the
    stream is left. *)
Lemma read_header_inv fo out fo' :
  read_header fo = (Ok out, fo') ->
  exists p : nat,
    take 4 (unread fo) = MAGIC /\
    (pos fo + 4 <= p)%nat /\
    (p + length (sync out) <= length (buf fo))%nat /\
    meta out = ∅ /\
    sync out = take (Z.to_nat SYNC_SIZE) (drop p (buf fo)) /\
    header_size out = Z.of_nat (p + length (sync out)) /\
    head_bytes out = take (p + length (sync out)) (buf fo) /\
    fo' = {| buf := buf fo; pos := (p + length (sync out))%nat |}.
Proof.
  intros H. unfold read_header in H.
  apply bind_ok_inv in H as (magic & fo1 & Hmagic & H).
  apply bind_ok_inv in H as (u & fo2 & Hassert & H).
  apply bind_ok_inv in H as (fuel & fo3 & Hfuel & H).
  apply bind_ok_inv in H as (u' & fo4 & Hloop & H).
  apply bind_ok_inv in H as (sy & fo5 & Hsync & H).
  apply bind_ok_inv in H as (size & fo6 & Htell & H).
  apply bind_ok_inv in H as (z & fo7 & Hseek & H).
  apply bind_ok_inv in H as (hb & fo8 & Hhead & H).
  injection H as <- <-. cbn [meta sync header_size head_bytes].
  apply read_inv in Hmagic as (Hm & Hb1 & Hp1).
  apply assert_ok_inv in Hassert as (Hcheck & ->).
  apply bool_decide_eq_true_1 in Hcheck.
  injection Hfuel as _ <-.
  apply steady_read_header_loop in Hloop as (Hb4 & Hp4 & Hi4).
  apply read_inv in Hsync as (Hs & Hb5 & Hp5).
  injection Htell as <- <-.
  injection Hseek as <- <-.
  apply read_inv in Hhead as (Hh & Hb8 & Hp8).
  unfold read_data in Hm, Hs, Hh.
  change (Z.of_nat (length MAGIC) <? 0) with false in Hm.
  change (Z.to_nat (Z.of_nat (length MAGIC))) with 4%nat in Hm.
  change (Z.to_nat 0) with 0%nat in *.
  replace (SYNC_SIZE <? 0) with false in Hs by reflexivity.
  replace (Z.of_nat (pos fo5) <? 0) with false in Hh
    by (symmetry; apply Z.ltb_ge; lia).
  rewrite Nat2Z.id in Hh. unfold unread in Hs, Hh.
  cbn [buf pos drop] in *.
  assert (Hlen4 : length magic = 4%nat) by now rewrite Hcheck.
  assert (Hin1 : in_bounds fo1).
  { unfold in_bounds. rewrite Hb1, Hp1, Hlen4.
    assert (length (take 4 (unread fo)) = 4%nat) by now rewrite <- Hm.
    rewrite length_take, length_unread in *. lia. }
  specialize (Hi4 Hin1). unfold in_bounds in Hi4.
  assert (Hin5 : (pos fo5 <= length (buf fo))%nat).
  { rewrite Hp5, Hs, length_take, length_drop, <- Hb1, <- Hb4. lia. }
  exists (pos fo4). rewrite <- Hp5, Hb4, Hb1 in *.
  split; [now rewrite <- Hm |].
  split; [lia |].
  split; [exact Hin5 |].
  split; [reflexivity |].
  split; [now rewrite <- Hb5 in Hs; rewrite Hb5 in Hs |].
  split; [reflexivity |].
  assert (Hhb : hb = take (pos fo5) (buf fo)) by now rewrite Hh, Hb5.
  split; [exact Hhb |].
  destruct fo8 as [b8 p8]. cbn [buf pos] in *. subst b8 p8.
  rewrite Hb5, Hhb, length_take. f_equal. lia.
Qed.



(** C10: when [read_header] succeeds, the stream position on return is
    the returned [header_size], [head_bytes] has exactly that length,
    and the bytes of the source are unchanged. *)
Theorem read_header_position fo out fo' :
  read_header fo = (Ok out, fo') ->
  Z.of_nat (pos fo') = header_size out /\
  Z.of_nat (length (head_bytes out)) = header_size out /\
  buf fo' = buf fo.
Proof.
  intros Hrun.
  apply read_header_inv in Hrun
    as (p & _ & _ & Hin & _ & _ & Hsize & Hhead & ->).
  cbn [buf pos]. rewrite Hsize, Hhead, length_take.
  repeat split. lia.
Qed.

Lemma read_header_position_witness :
  Z.of_nat (pos (mkBytesIO (buf sample_file) 26)) = header_size sample_header /\
  Z.of_nat (length (head_bytes sample_header)) = header_size sample_header /\
  buf (mkBytesIO (buf sample_file) 26) = buf sample_file.
Proof.
  apply (read_header_position sample_file sample_header
           (mkBytesIO (buf sample_file) 26)).
  vm_compute. reflexivity.
Defined.

(** C2 (as the code has it): on a header laid out by the writer,
    [read_header] reads the framed key and the framed value of every
    entry of every block, so that it finds the sync token after the
    zero count and stops at the end of the header; it keeps none of
    them: the metadata mapping it returns is empty. *)
Theorem read_header_drops_metadata blocks sync_token data :
  wf_header blocks sync_token ->
  exists out,
    read_header (mkBytesIO (write_header blocks sync_token ++ data) 0)
    = (Ok out,
       mkBytesIO (write_header blocks sync_token ++ data)
                 (length (write_header blocks sync_token))) /\
    meta out = ∅ /\
    sync out = sync_token.
Proof.
  intros Hwf. eexists. split; [now apply read_header_write_header |].
  split; reflexivity.
Qed.

Lemma read_header_drops_metadata_witness :
  exists out,
    read_header (mkBytesIO (write_header sample_blocks sample_sync
                            ++ sample_data) 0)
    = (Ok out,
       mkBytesIO (write_header sample_blocks sample_sync ++ sample_data)
                 (length (write_header sample_blocks sample_sync))) /\
    meta out = ∅ /\
    sync out = sample_sync.
Proof.
  apply (read_header_drops_metadata sample_blocks sample_sync sample_data).
  split; [| split; [reflexivity | vm_compute; reflexivity]].
  repeat constructor; unfold short; simpl; first [discriminate | lia].
Defined.

(** The claim of C2 fails on the sample file: its header holds the
    entry ([k], [v]), [read_header] succeeds on it, and the mapping it
    returns has no entry for [k]. *)
Lemma read_header_loses_entries :
  sample_header_bytes = write_header [[([x6b], [x76])]] sample_sync /\
  written_meta [[([x6b], [x76])]] !! [x6b] = Some [x76] /\
  exists out fo',
    read_header sample_file = (Ok out, fo') /\
    meta out !! [x6b] = None /\
    meta out <> written_meta [[([x6b], [x76])]].
Proof.
  split; [reflexivity |].
  assert (Hk : written_meta [[([x6b], [x76])]] !! [x6b] = Some [x76])
    by apply lookup_insert_eq.
  split; [exact Hk |].
  exists sample_header, (mkBytesIO (buf sample_file) 26).
  split; [vm_compute; reflexivity |].
  split; [apply lookup_empty |].
  intros Heq. simpl in Heq. rewrite <- Heq, lookup_empty in Hk. discriminate.
Qed.

(** ** The loops of the model never run out of fuel *)

Lemma terminates_ret {A} (a : A) : terminates (ret a).
Proof. intros fo. discriminate. Qed.

Lemma terminates_raise {A} e : terminates (@raise A e).
Proof. intros fo. discriminate. Qed.

Lemma bind_in_fuel {A B} (m : M A) (k : A -> M B) fo :
  fst (m fo) <> OutOfFuel -> (forall a, terminates (k a)) ->
  fst (bind m k fo) <> OutOfFuel.
Proof.
  intros Hm Hk. unfold bind.
  destruct (m fo) as [[a | e |] fo1];
    [apply Hk | discriminate | now destruct Hm].
Qed.

Lemma terminates_bind {A B} (m : M A) (k : A -> M B) :
  terminates m -> (forall a, terminates (k a)) -> terminates (bind m k).
Proof. intros Hm Hk fo. now apply bind_in_fuel. Qed.

Lemma terminates_read size : terminates (read size).
Proof. intros fo. unfold read. destruct (in_ssize size); discriminate. Qed.

Lemma terminates_ord c : terminates (ord c).
Proof. destruct c as [| b [| b' c]]; intros fo; discriminate. Qed.

Lemma unread_shorter {A} (m : M A) fo r fo' :
  steady m -> m fo = (r, fo') ->
  (length (unread fo') <= length (unread fo))%nat.
Proof.
  intros Hm Hrun. apply Hm in Hrun as (Hb & Hp & _).
  rewrite !length_unread, Hb. lia.
Qed.

Lemma read_data_one fo : read_data 1 fo = take 1 (unread fo).
Proof. reflexivity. Qed.

Lemma read_long_loop_terminates fuel :
  forall b n shift fo,
    (length (unread fo) < fuel)%nat ->
    fst (read_long_loop fuel b n shift fo) <> OutOfFuel.
Proof.
  induction fuel as [| fuel IH]; intros b n shift fo Hfuel; [lia |].
  rewrite read_long_loop_eq. destruct (_ =? _); [discriminate |].
  unfold bind at 1. rewrite read_eq, read_data_one by reflexivity.
  destruct (unread fo) as [| c rest] eqn:Hun; [discriminate |].
  change (take 1 (c :: rest)) with [c]. rewrite bind_ord.
  apply IH. rewrite (unread_advance fo [c] rest Hun). simpl in Hfuel. lia.
Qed.

Lemma terminates_read_long : terminates read_long.
Proof.
  intros fo. unfold read_long.
  unfold bind at 1. rewrite read_eq, read_data_one by reflexivity.
  destruct (unread fo) as [| c rest] eqn:Hun; [discriminate |].
  change (take 1 (c :: rest)) with [c].
  rewrite bind_ord, bind_fuel_here.
  apply bind_in_fuel; [| intros n; apply terminates_ret].
  apply read_long_loop_terminates. lia.
Qed.

Lemma terminates_read_bytes : terminates read_bytes.
Proof.
  apply terminates_bind; [apply terminates_read_long | apply terminates_read].
Qed.

Lemma terminates_for {A} (l : list A) (body : A -> M unit) :
  (forall x, terminates (body x)) -> terminates (for_ l body).
Proof.
  intros Hbody. induction l as [| x l IH]; simpl; [apply terminates_ret |].
  apply terminates_bind; auto.
Qed.

Lemma terminates_entry : terminates (read_bytes ;;; read_bytes ;;; ret tt).
Proof.
  apply terminates_bind; [apply terminates_read_bytes | intros _].
  apply terminates_bind; [apply terminates_read_bytes | intros _].
  apply terminates_ret.
Qed.

(** A successful [read_long] has read at least one byte. *)
Lemma read_long_progress fo n fo1 :
  read_long fo = (Ok n, fo1) ->
  (length (unread fo1) < length (unread fo))%nat.
Proof.
  intros Hrun. unfold read_long in Hrun.
  apply bind_ok_inv in Hrun as (c & fo0 & Hread & Hrun).
  assert (Hrest : steady (b <- ord c ;;
                          fuel <- fuel_here ;;
                          n <- read_long_loop fuel b (Z.land b 0x7F) 7 ;;
                          ret (Z.lxor (Z.shiftr n 1) (- Z.land n 1)))).
  { apply steady_bind; [apply steady_ord | intros b].
    apply steady_bind; [apply steady_fuel_here | intros fuel].
    apply steady_bind; [apply steady_read_long_loop | intros n'].
    apply steady_ret. }
  pose proof (unread_shorter _ _ _ _ Hrest Hrun) as Hle.
  apply bind_ok_inv in Hrun as (b & fo0' & Hord & _).
  destruct c as [| c0 [| c1 c]]; try discriminate.
  apply read_inv in Hread as (Hdata & Hb & Hp).
  assert (Hone : (1 <= length (unread fo))%nat).
  { pose proof (read_data_length_le 1 fo) as H. now rewrite <- Hdata in H. }
  rewrite !length_unread in *. rewrite Hb, Hp in Hle. simpl in Hle. lia.
Qed.

Lemma read_header_loop_terminates fuel :
  forall fo,
    (length (unread fo) < fuel)%nat ->
    fst (read_header_loop fuel fo) <> OutOfFuel.
Proof.
  induction fuel as [| fuel IH]; intros fo Hfuel; [lia |].
  rewrite read_header_loop_eq. unfold bind at 1.
  pose proof (terminates_read_long fo) as Hlong.
  destruct (read_long fo) as [[n_keys | e |] fo1] eqn:Hrun;
    [| discriminate | contradiction].
  apply read_long_progress in Hrun.
  destruct (_ =? _); [discriminate |].
  unfold bind.
  pose proof (terminates_for (py_range 0 n_keys 1) _
                (fun _ => terminates_entry) fo1) as Hfor.
  destruct (for_ _ _ fo1) as [[u | e |] fo2] eqn:Hentries;
    [| discriminate | contradiction].
  apply IH.
  pose proof (unread_shorter _ _ _ _
                (steady_for _ _ (fun _ => steady_entry)) Hentries).
  lia.
Qed.

(** [read_header] returns a header or raises: the bound on its loops
    is never reached. *)
Lemma terminates_read_header : terminates read_header.
Proof.
  unfold read_header.
  apply terminates_bind; [apply terminates_read | intros magic].
  apply terminates_bind;
    [destruct (bool_decide _); intros fo; discriminate | intros _].
  intros fo. rewrite bind_fuel_here.
  apply bind_in_fuel; [apply read_header_loop_terminates; lia | intros _].
  apply terminates_bind; [apply terminates_read | intros sync_token].
  apply terminates_bind; [intros fo1; discriminate | intros size].
  apply terminates_bind; [| intros _].
  - intros fo1. unfold seek. simpl. discriminate.
  - apply terminates_bind; [apply terminates_read | intros hb].
    apply terminates_ret.
Qed.

(** * Further properties *)

(** ** The partition plan *)

(** X1: for a positive block size, every byte position of the file
    lies in exactly one window of the plan: the windows cover the file
    and no two of them overlap. *)
Theorem windows_partition (S B x : Z) :
  0 < B -> 0 <= x < S ->
  exists (ws : list (Z * Z)) (k : nat),
    windows S B = Ok ws /\
    ws !! k = Some (Z.of_nat k * B, B) /\
    Z.of_nat k * B <= x < Z.of_nat k * B + B /\
    forall j o l, ws !! j = Some (o, l) -> o <= x < o + l -> j = k.
Proof.
  intros HB Hx.
  assert (Hq : 0 <= x / B) by (apply Z.div_pos; lia).
  pose proof (Z.mul_div_le x B HB) as Hlo.
  pose proof (Z.mul_succ_div_gt x B HB) as Hhi.
  assert (Hn : x / B < (S + B - 1) / B).
  { apply Z.div_lt_upper_bound; [lia |].
    pose proof (Z.mul_succ_div_gt (S + B - 1) B HB). lia. }
  eexists _, (Z.to_nat (x / B)).
  split; [apply windows_eq; lia |].
  split; [| split].
  - rewrite list_lookup_fmap, lookup_seq_lt by lia. reflexivity.
  - rewrite Z2Nat.id by lia. lia.
  - intros j o l Hj Hin.
    rewrite list_lookup_fmap in Hj.
    destruct (seq 0 _ !! j) as [i |] eqn:Hi; [| discriminate].
    apply lookup_seq in Hi as [-> _]. injection Hj as <- <-.
    simpl in Hin. apply Nat2Z.inj. rewrite Z2Nat.id by lia.
    apply Z.div_unique with (r := x - Z.of_nat j * B); lia.
Qed.

Lemma windows_partition_witness :
  exists (ws : list (Z * Z)) (k : nat),
    windows 5 2 = Ok ws /\
    ws !! k = Some (Z.of_nat k * 2, 2) /\
    Z.of_nat k * 2 <= 3 < Z.of_nat k * 2 + 2 /\
    forall j o l, ws !! j = Some (o, l) -> o <= 3 < o + l -> j = k.
Proof. apply (windows_partition 5 2 3); lia. Defined.

(** X2: a file that is not larger than the block size, and not empty,
    is planned as the single window [(0, B)]. *)
Theorem windows_small_file (S B : Z) :
  0 < S <= B -> windows S B = Ok [(0, B)].
Proof.
  intros HS. rewrite windows_eq by lia.
  replace ((S + B - 1) / B) with 1; [reflexivity |].
  apply Z.div_unique with (r := S - 1); lia.
Qed.

Lemma windows_small_file_witness : windows 7 100000000 = Ok [(0, 100000000)].
Proof. apply (windows_small_file 7 100000000). lia. Defined.



(** X5: for a non-zero block size the planning loop returns one list of
    offsets and one list of lengths for each file, in the order of the
    files; those of a file have the same number of elements and are
    the plan of that file alone. *)
Theorem offsets_lengths_per_file (sizes : list Z) (B : Z) :
  B <> 0 ->
  exists offsets lengths,
    offsets_lengths sizes B = Ok (offsets, lengths) /\
    length offsets = length sizes /\
    length lengths = length sizes /\
    forall i size,
      sizes !! i = Some size ->
      exists off len,
        offsets !! i = Some off /\ lengths !! i = Some len /\
        length off = length len /\
        windows size B = Ok (zip off len).
Proof.
  intros HB. induction sizes as [| size0 sizes IH].
  - exists [], []. repeat split; try reflexivity. intros i size Hi.
    rewrite lookup_nil in Hi. discriminate.
  - destruct IH as (offsets & lengths & Hrun & Hlo & Hll & Hfiles).
    assert (Hfile : file_offsets_lengths size0 B
                    = Ok (py_range 0 size0 B,
                          repeat B (length (py_range 0 size0 B)))).
    { unfold file_offsets_lengths.
      now replace (B =? 0) with false by (symmetry; now apply Z.eqb_neq). }
    eexists (_ :: offsets), (_ :: lengths).
    split; [cbn [offsets_lengths]; rewrite Hfile, Hrun; reflexivity |].
    split; [simpl; now rewrite Hlo |].
    split; [simpl; now rewrite Hll |].
    intros [| i] size Hi.
    + injection Hi as <-. eexists _, _.
      split; [reflexivity |]. split; [reflexivity |].
      split; [now rewrite repeat_length |].
      unfold windows. now rewrite Hfile.
    + apply Hfiles. exact Hi.
Qed.

Lemma offsets_lengths_per_file_witness :
  exists offsets lengths,
    offsets_lengths [5; 0; 4] 2 = Ok (offsets, lengths) /\
    length offsets = length [5; 0; 4] /\
    length lengths = length [5; 0; 4] /\
    forall i size,
      [5; 0; 4] !! i = Some size ->
      exists off len,
        offsets !! i = Some off /\ lengths !! i = Some len /\
        length off = length len /\
        windows size 2 = Ok (zip off len).
Proof. apply (offsets_lengths_per_file [5; 0; 4] 2). lia. Defined.

(** ** [read_long] on arbitrary bytes *)

Lemma continues_true b : continues b = true -> Z.land (byte_val b) 0x80 <> 0.
Proof. unfold continues. now intros H%negb_true_iff%Z.eqb_neq. Qed.

Lemma continues_false b : continues b = false -> Z.land (byte_val b) 0x80 = 0.
Proof. unfold continues. now intros H%negb_false_iff%Z.eqb_eq. Qed.

Lemma read_byte fo c rest (k : bytes -> M Z) :
  unread fo = c :: rest ->
  bind (read 1) k fo
  = k [c] {| buf := buf fo; pos := (pos fo + 1)%nat |}.
Proof.
  intros Hun. exact (bind_ok _ _ _ _ _ (consumes_read 1 [c] eq_refl eq_refl fo rest Hun)).
Qed.

Lemma unread_next fo c rest :
  unread fo = c :: rest ->
  unread {| buf := buf fo; pos := (pos fo + 1)%nat |} = rest.
Proof. intros Hun. exact (unread_advance fo [c] rest Hun). Qed.

(** The loop on bytes that all ask for more, then one that does not. *)
Lemma read_long_loop_decodes conts :
  forall t rest fuel b acc shift fo,
    Z.land b 0x80 <> 0 ->
    0 <= shift ->
    (length conts < fuel)%nat ->
    unread fo = conts ++ t :: rest ->
    Forall (fun c => continues c = true) conts ->
    continues t = false ->
    read_long_loop fuel b acc shift fo =
    (Ok (Z.lor acc (Z.shiftl (magnitude (conts ++ [t])) shift)),
     {| buf := buf fo; pos := (pos fo + length conts + 1)%nat |}).
Proof.
  induction conts as [| c conts IH];
    intros t rest fuel b acc shift fo Hb Hshift Hfuel Hun Hconts Ht;
    (destruct fuel as [| fuel]; [simpl in Hfuel; lia |]);
    rewrite read_long_loop_eq;
    (replace (Z.land b 0x80 =? 0) with false by (symmetry; now apply Z.eqb_neq)).
  - rewrite (read_byte fo t rest) by exact Hun.
    rewrite bind_ord, read_long_loop_eq, (continues_false t Ht).
    cbn [magnitude app length Z.eqb]. rewrite Z.shiftl_0_l, Z.lor_0_r.
    unfold ret. now rewrite Nat.add_0_r.
  - apply Forall_cons in Hconts as [Hc Hconts].
    rewrite (read_byte fo c (conts ++ t :: rest)) by exact Hun.
    rewrite bind_ord.
    rewrite (IH t rest fuel _ _ (shift + 7) _ (continues_true c Hc));
      [| lia | simpl in Hfuel; lia | exact (unread_next _ _ _ Hun)
       | exact Hconts | exact Ht].
    cbn [buf pos length magnitude app]. f_equal; [| f_equal; lia]. f_equal.
    rewrite <- Z.lor_assoc, (Z.add_comm shift 7).
    rewrite <- (Z.shiftl_shiftl _ 7 shift) by lia.
    now rewrite <- Z.shiftl_lor.
Qed.

(** The last line of [read_long], in arithmetic. *)
Lemma unzigzag_arith n :
  0 <= n ->
  Z.lxor (Z.shiftr n 1) (- Z.land n 1)
  = if Z.even n then n / 2 else - ((n + 1) / 2).
Proof.
  intros Hn. change 1 with (Z.ones 1) at 2.
  rewrite Z.land_ones, Z.shiftr_div_pow2 by lia. change (2 ^ 1) with 2.
  rewrite Zmod_even. destruct (Z.even n) eqn:He.
  - apply Z.lxor_0_r.
  - change (- (1)) with (-1). rewrite Z.lxor_m1_r. unfold Z.lnot.
    pose proof (Zmod_even n) as Hm. rewrite He in Hm.
    pose proof (Z.div_mod n 2 ltac:(lia)) as Hd.
    replace ((n + 1) / 2) with (n / 2 + 1); [lia |].
    apply Z.div_unique with (r := 0); lia.
Qed.

Lemma magnitude_nonneg bs : 0 <= magnitude bs.
Proof.
  induction bs as [| b bs IH]; simpl; [lia |].
  apply Z.lor_nonneg. split; [apply land_127_range |].
  now apply Z.shiftl_nonneg.
Qed.

(** X6: [read_long] reads up to the first byte whose top bit is clear
    and no further, however many bytes that takes; with [n] the number
    that the seven low bits of those bytes denote, lowest first, it
    returns [n / 2] when [n] is even and [-(n + 1) / 2] when [n] is
    odd. *)
Theorem read_long_decodes fo conts t rest :
  unread fo = conts ++ t :: rest ->
  Forall (fun c => continues c = true) conts ->
  continues t = false ->
  read_long fo =
  (Ok (if Z.even (magnitude (conts ++ [t]))
       then magnitude (conts ++ [t]) / 2
       else - ((magnitude (conts ++ [t]) + 1) / 2)),
   {| buf := buf fo; pos := (pos fo + length conts + 1)%nat |}).
Proof.
  intros Hun Hconts Ht.
  rewrite <- unzigzag_arith by apply magnitude_nonneg.
  unfold read_long. destruct conts as [| c conts].
  - rewrite (read_byte fo t rest) by exact Hun.
    rewrite bind_ord, bind_fuel_here. unfold bind at 1.
    rewrite read_long_loop_eq, (continues_false t Ht).
    cbn [magnitude app length Z.eqb]. rewrite Z.shiftl_0_l, Z.lor_0_r.
    unfold ret. now rewrite Nat.add_0_r.
  - apply Forall_cons in Hconts as [Hc Hconts].
    rewrite (read_byte fo c (conts ++ t :: rest)) by exact Hun.
    rewrite bind_ord, bind_fuel_here. unfold bind at 1.
    pose proof (unread_next _ _ _ Hun) as Hun'.
    rewrite (read_long_loop_decodes conts t rest _ _ _ 7 _
               (continues_true c Hc));
      [| lia | rewrite Hun', length_app; simpl; lia | exact Hun'
       | exact Hconts | exact Ht].
    cbn [buf pos length magnitude app]. unfold ret.
    do 2 f_equal. lia.
Qed.

Lemma read_long_decodes_witness :
  read_long (mkBytesIO [x00; xac; x02; x07] 1) =
  (Ok (if Z.even (magnitude ([xac] ++ [x02]))
       then magnitude ([xac] ++ [x02]) / 2
       else - ((magnitude ([xac] ++ [x02]) + 1) / 2)),
   {| buf := [x00; xac; x02; x07]; pos := (1 + length [xac] + 1)%nat |}).
Proof.
  apply (read_long_decodes (mkBytesIO [x00; xac; x02; x07] 1)
           [xac] x02 [x07]).
  - reflexivity.
  - repeat constructor.
  - reflexivity.
Defined.

(** The loop on bytes that all ask for more, up to the end. *)
Lemma read_long_loop_starves conts :
  forall fuel b acc shift fo,
    Z.land b 0x80 <> 0 ->
    (length conts < fuel)%nat ->
    unread fo = conts ->
    Forall (fun c => continues c = true) conts ->
    read_long_loop fuel b acc shift fo =
    (Raise (TypeError "ord() expected a character"),
     {| buf := buf fo; pos := (pos fo + length conts)%nat |}).
Proof.
  induction conts as [| c conts IH];
    intros fuel b acc shift fo Hb Hfuel Hun Hconts;
    (destruct fuel as [| fuel]; [simpl in Hfuel; lia |]);
    rewrite read_long_loop_eq;
    (replace (Z.land b 0x80 =? 0) with false by (symmetry; now apply Z.eqb_neq)).
  - unfold bind at 1. rewrite read_eq, read_data_one by reflexivity. rewrite Hun. reflexivity.
  - apply Forall_cons in Hconts as [Hc Hconts].
    rewrite (read_byte fo c conts) by exact Hun.
    rewrite bind_ord.
    rewrite (IH fuel _ _ _ _ (continues_true c Hc));
      [| simpl in Hfuel; lia | exact (unread_next _ _ _ Hun) | exact Hconts].
    cbn [buf pos length]. do 2 f_equal. lia.
Qed.

Lemma read_long_no_last_byte fo :
  Forall (fun c => continues c = true) (unread fo) ->
  read_long fo =
  (Raise (TypeError "ord() expected a character"),
   {| buf := buf fo; pos := (pos fo + length (unread fo))%nat |}).
Proof.
  intros Hconts. unfold read_long.
  destruct (unread fo) as [| c conts] eqn:Hun.
  - unfold bind at 1. rewrite read_eq, read_data_one by reflexivity. rewrite Hun. reflexivity.
  - apply Forall_cons in Hconts as [Hc Hconts].
    rewrite (read_byte fo c conts) by exact Hun.
    rewrite bind_ord, bind_fuel_here. unfold bind at 1.
    pose proof (unread_next _ _ _ Hun) as Hun'.
    rewrite (read_long_loop_starves conts _ _ _ _ _ (continues_true c Hc));
      [| rewrite Hun'; lia | exact Hun' | exact Hconts].
    cbn [buf pos length]. do 2 f_equal. lia.
Qed.

(** X7: when no unread byte has its top bit clear, in particular when
    the source is at its end, [read_long] raises the [TypeError] of
    [ord] on the empty read, and the source is left at its end. *)
Theorem read_long_starves fo :
  Forall (fun c => continues c = true) (unread fo) ->
  read_long fo =
  (Raise (TypeError "ord() expected a character"),
   {| buf := buf fo; pos := (pos fo + length (unread fo))%nat |}).
Proof. exact (read_long_no_last_byte fo). Qed.

Lemma read_long_starves_witness :
  read_long (mkBytesIO [x00; xff; x80] 1) =
  (Raise (TypeError "ord() expected a character"),
   {| buf := [x00; xff; x80];
      pos := (1 + length (unread (mkBytesIO [x00; xff; x80] 1)))%nat |}).
Proof.
  apply (read_long_starves (mkBytesIO [x00; xff; x80] 1)).
  repeat constructor.
Defined.

(** X8: framed bytes written by the writer are read back by
    [read_bytes], which leaves the source just after them. *)
Theorem read_bytes_write_bytes (data : bytes) (fo : BytesIO) (rest : bytes) :
  short data ->
  unread fo = write_bytes data ++ rest ->
  read_bytes fo =
  (Ok data,
   {| buf := buf fo; pos := (pos fo + length (write_bytes data))%nat |}).
Proof. intros Hshort Hun. exact (consumes_read_bytes data Hshort fo rest Hun). Qed.

Lemma read_bytes_write_bytes_witness :
  read_bytes (mkBytesIO (write_bytes [x6b; x76] ++ [x00]) 0) =
  (Ok [x6b; x76],
   {| buf := write_bytes [x6b; x76] ++ [x00];
      pos := (0 + length (write_bytes [x6b; x76]))%nat |}).
Proof.
  apply (read_bytes_write_bytes [x6b; x76]
           (mkBytesIO (write_bytes [x6b; x76] ++ [x00]) 0) [x00]).
  - unfold short. simpl. lia.
  - reflexivity.
Defined.

(** ** The outcomes of [read_header] *)

Lemma outcome_in_bind {A B} (P : exn -> Prop) (m : M A) (k : A -> M B) fo :
  outcome_in P (fst (m fo)) ->
  (forall a fo1, outcome_in P (fst (k a fo1))) ->
  outcome_in P (fst (bind m k fo)).
Proof.
  intros Hm Hk. unfold bind.
  destruct (m fo) as [[a | e |] fo1]; [apply Hk | exact Hm | exact Hm].
Qed.

Lemma outcome_in_ord (P : exn -> Prop) c fo :
  P (TypeError "ord() expected a character") ->
  outcome_in P (fst (ord c fo)).
Proof. intros HP. destruct c as [| b [| b' c]]; simpl; auto. Qed.

Lemma outcome_in_read_long_loop (P : exn -> Prop) fuel :
  P (TypeError "ord() expected a character") ->
  forall b n shift fo,
    (length (unread fo) < fuel)%nat ->
    outcome_in P (fst (read_long_loop fuel b n shift fo)).
Proof.
  intros HP. induction fuel as [| fuel IH]; intros b n shift fo Hfuel; [lia |].
  rewrite read_long_loop_eq. destruct (_ =? _); [exact I |].
  unfold bind at 1. rewrite read_eq, read_data_one by reflexivity.
  destruct (unread fo) as [| c rest] eqn:Hun; [exact HP |].
  change (take 1 (c :: rest)) with [c]. rewrite bind_ord.
  apply IH. rewrite (unread_advance fo [c] rest Hun). simpl in Hfuel. lia.
Qed.

Lemma outcome_in_read_long (P : exn -> Prop) fo :
  P (TypeError "ord() expected a character") ->
  outcome_in P (fst (read_long fo)).
Proof.
  intros HP. unfold read_long.
  unfold bind at 1. rewrite read_eq, read_data_one by reflexivity.
  destruct (unread fo) as [| c rest] eqn:Hun; [exact HP |].
  change (take 1 (c :: rest)) with [c]. rewrite bind_ord, bind_fuel_here.
  apply outcome_in_bind; [| intros; exact I].
  apply outcome_in_read_long_loop; [exact HP | lia].
Qed.

Lemma outcome_in_read (P : exn -> Prop) size fo :
  P (OverflowError "cannot fit 'int' into an index-sized integer") ->
  outcome_in P (fst (read size fo)).
Proof. intros HO. unfold read. now destruct (in_ssize size). Qed.

Lemma outcome_in_read_bytes (P : exn -> Prop) fo :
  P (TypeError "ord() expected a character") ->
  P (OverflowError "cannot fit 'int' into an index-sized integer") ->
  outcome_in P (fst (read_bytes fo)).
Proof.
  intros HP HO. unfold read_bytes.
  apply outcome_in_bind; [now apply outcome_in_read_long | intros n fo1].
  now apply outcome_in_read.
Qed.

Lemma outcome_in_entries {A} (P : exn -> Prop) (l : list A) :
  P (TypeError "ord() expected a character") ->
  P (OverflowError "cannot fit 'int' into an index-sized integer") ->
  forall fo,
    outcome_in P
      (fst (for_ l (fun _ => read_bytes ;;; read_bytes ;;; ret tt) fo)).
Proof.
  intros HP HO. induction l as [| x l IH]; intros fo; [exact I |].
  cbn [for_]. apply outcome_in_bind; [| intros; apply IH].
  apply outcome_in_bind; [now apply outcome_in_read_bytes | intros _ fo1].
  apply outcome_in_bind; [now apply outcome_in_read_bytes | intros; exact I].
Qed.

Lemma outcome_in_read_header_loop (P : exn -> Prop) fuel :
  P (TypeError "ord() expected a character") ->
  P (OverflowError "cannot fit 'int' into an index-sized integer") ->
  forall fo,
    (length (unread fo) < fuel)%nat ->
    outcome_in P (fst (read_header_loop fuel fo)).
Proof.
  intros HP HO. induction fuel as [| fuel IH]; intros fo Hfuel; [lia |].
  rewrite read_header_loop_eq. unfold bind at 1.
  pose proof (outcome_in_read_long P fo HP) as Hlong.
  destruct (read_long fo) as [[n_keys | e |] fo1] eqn:Hrun;
    [| exact Hlong | exact Hlong].
  apply read_long_progress in Hrun.
  destruct (_ =? _); [exact I |].
  unfold bind.
  pose proof (outcome_in_entries P (py_range 0 n_keys 1) HP HO fo1) as Hfor.
  destruct (for_ _ _ fo1) as [[u | e |] fo2] eqn:Hentries;
    [| exact Hfor | exact Hfor].
  apply IH.
  pose proof (unread_shorter _ _ _ _
                (steady_for _ _ (fun _ => steady_entry)) Hentries).
  lia.
Qed.

(** X9: on every byte source [read_header] returns a header or raises;
    its loops come to an end, and the only exceptions it raises are the
    [AssertionError] of the magic check, the [TypeError] of [ord] on
    an empty read at the end of the data, and the [OverflowError] of
    [fo.read] on a length that does not fit [Py_ssize_t]. *)
Theorem read_header_outcomes fo :
  outcome_in header_error (fst (read_header fo)).
Proof.
  assert (HT : header_error (TypeError "ord() expected a character"))
    by (right; left; eauto).
  assert (HO : header_error
                 (OverflowError "cannot fit 'int' into an index-sized integer"))
    by (right; right; eauto).
  unfold read_header.
  apply outcome_in_bind; [now apply outcome_in_read | intros magic fo1].
  apply outcome_in_bind; [| intros _ fo2].
  { destruct (bool_decide _); simpl; [exact I | now left]. }
  rewrite bind_fuel_here.
  apply outcome_in_bind;
    [apply outcome_in_read_header_loop; [exact HT | exact HO | lia]
    | intros _ fo3].
  apply outcome_in_bind; [now apply outcome_in_read | intros sy fo4].
  apply outcome_in_bind; [exact I | intros size fo5].
  apply outcome_in_bind; [exact I | intros z fo6].
  apply outcome_in_bind; [now apply outcome_in_read | intros hb fo7]. exact I.
Qed.

(** Each of the three exceptions is raised on some source. *)
Example read_header_raises_each :
  fst (read_header (mkBytesIO [x4f; x62; x6a; x02] 0))
  = Raise (AssertionError "Magic avro bytes missing") /\
  fst (read_header (mkBytesIO [x4f; x62; x6a; x01; x02; x02] 0))
  = Raise (TypeError "ord() expected a character") /\
  fst (read_header
         (mkBytesIO [x4f; x62; x6a; x01; x02;
                     x80; x80; x80; x80; x80; x80; x80; x80; x80; x02;
                     x6b] 0))
  = Raise (OverflowError "cannot fit 'int' into an index-sized integer").
Proof. repeat split; reflexivity. Qed.

Lemma keeps_buf_bind {A B} (m : M A) (k : A -> M B) :
  (forall fo, buf (snd (m fo)) = buf fo) ->
  (forall a fo, buf (snd (k a fo)) = buf fo) ->
  forall fo, buf (snd (bind m k fo)) = buf fo.
Proof.
  intros Hm Hk fo. unfold bind. specialize (Hm fo).
  destruct (m fo) as [[a | e |] fo1]; simpl in *;
    [now rewrite Hk | exact Hm | exact Hm].
Qed.

Lemma steady_keeps_buf {A} (m : M A) :
  steady m -> forall fo, buf (snd (m fo)) = buf fo.
Proof.
  intros Hm fo. destruct (m fo) as [r fo'] eqn:Hrun.
  now apply Hm in Hrun as (Hb & _).
Qed.

(** X10: whatever its outcome, [read_header] leaves the bytes of the
    source as they were, also when it raises. *)
Theorem read_header_keeps_bytes fo : buf (snd (read_header fo)) = buf fo.
Proof.
  revert fo. unfold read_header.
  apply keeps_buf_bind;
    [apply steady_keeps_buf, steady_read | intros magic].
  apply keeps_buf_bind;
    [apply steady_keeps_buf, steady_assert | intros _].
  apply keeps_buf_bind;
    [apply steady_keeps_buf, steady_fuel_here | intros fuel].
  apply keeps_buf_bind;
    [apply steady_keeps_buf, steady_read_header_loop | intros _].
  apply keeps_buf_bind;
    [apply steady_keeps_buf, steady_read | intros sy].
  apply keeps_buf_bind;
    [apply steady_keeps_buf, steady_tell | intros size].
  apply keeps_buf_bind; [reflexivity | intros z].
  apply keeps_buf_bind;
    [apply steady_keeps_buf, steady_read | intros hb].
  reflexivity.
Qed.

(** X11: a source that ends after the magic marker, or after bytes
    that all have their top bit set, has no count to read:
    [read_header] raises the [TypeError] of [ord], at the end of the
    source. *)
Theorem read_header_truncated fo conts :
  unread fo = MAGIC ++ conts ->
  Forall (fun c => continues c = true) conts ->
  read_header fo =
  (Raise (TypeError "ord() expected a character"),
   {| buf := buf fo; pos := (pos fo + length MAGIC + length conts)%nat |}).
Proof.
  intros Hun Hconts. unfold read_header.
  rewrite (bind_ok _ _ _ _ _ (consumes_read _ MAGIC eq_refl eq_refl fo conts Hun)).
  rewrite bool_decide_eq_true_2 by reflexivity.
  rewrite bind_assert_true, bind_fuel_here.
  apply bind_raise. rewrite read_header_loop_eq. apply bind_raise.
  pose proof (unread_advance fo MAGIC conts Hun) as Hun'.
  rewrite read_long_no_last_byte by now rewrite Hun'.
  now rewrite Hun'.
Qed.

Lemma read_header_truncated_witness :
  read_header (mkBytesIO [x4f; x62; x6a; x01; x82] 0) =
  (Raise (TypeError "ord() expected a character"),
   {| buf := [x4f; x62; x6a; x01; x82];
      pos := (0 + length MAGIC + length [x82])%nat |}).
Proof.
  apply (read_header_truncated (mkBytesIO [x4f; x62; x6a; x01; x82] 0) [x82]).
  - reflexivity.
  - repeat constructor.
Defined.

(** ** Headers with a short sync token or a negative count *)

(** [read_header] on the magic marker, bytes that the loop consumes,
    and anything after them: the sync token is what the read of
    [SYNC_SIZE] bytes finds, all of it or less. *)
Lemma read_header_layout body tail :
  consumes (read_header_loop (S (length (body ++ tail)))) body tt ->
  short (MAGIC ++ body ++ take (Z.to_nat SYNC_SIZE) tail) ->
  read_header (mkBytesIO (MAGIC ++ body ++ tail) 0) =
  (Ok {| meta := ∅; sync := take (Z.to_nat SYNC_SIZE) tail;
         header_size :=
           Z.of_nat (length (MAGIC ++ body ++ take (Z.to_nat SYNC_SIZE) tail));
         head_bytes := MAGIC ++ body ++ take (Z.to_nat SYNC_SIZE) tail |},
   mkBytesIO (MAGIC ++ body ++ tail)
             (length (MAGIC ++ body ++ take (Z.to_nat SYNC_SIZE) tail))).
Proof.
  intros Hloop Hshort. unfold read_header.
  set (buffer := MAGIC ++ body ++ tail).
  assert (Hhdr : unread (mkBytesIO buffer 0) = MAGIC ++ body ++ tail)
    by reflexivity.
  rewrite (bind_ok _ _ _ _ _ (consumes_read _ MAGIC eq_refl eq_refl _ _ Hhdr)).
  rewrite bool_decide_eq_true_2 by reflexivity.
  rewrite bind_assert_true, bind_fuel_here.
  pose proof (unread_advance _ MAGIC _ Hhdr) as Hun1.
  cbn [buf pos] in *. rewrite Hun1 at 1.
  rewrite (bind_ok _ _ _ _ _ (Hloop _ _ Hun1)).
  pose proof (unread_advance _ body _ Hun1) as Hun2.
  cbn [buf pos] in *.
  unfold bind at 1. rewrite read_eq by reflexivity. unfold read_data.
  change (SYNC_SIZE <? 0) with false. cbv iota. rewrite Hun2.
  rewrite bind_tell, bind_seek_start. cbn [buf pos].
  set (sy := take (Z.to_nat SYNC_SIZE) tail).
  assert (Hlen : length (MAGIC ++ body ++ sy)
                 = (0 + length MAGIC + length body + length sy)%nat).
  { rewrite !length_app. lia. }
  rewrite <- Hlen.
  assert (Hall : unread (mkBytesIO buffer 0)
                 = (MAGIC ++ body ++ sy) ++ drop (Z.to_nat SYNC_SIZE) tail).
  { unfold sy. rewrite <- !app_assoc, take_drop. reflexivity. }
  rewrite (bind_ok _ _ _ _ _
             (consumes_read _ (MAGIC ++ body ++ sy) eq_refl
                (in_ssize_short _ Hshort) (mkBytesIO buffer 0) _ Hall)).
  reflexivity.
Qed.

(** X12: [read_header] does not check the length of the sync token: on
    a header laid out by the writer but cut inside the token (a
    source of fewer than [2 ^ 63] bytes, as every source is), it
    succeeds and returns as [sync] the bytes that are left, fewer than
    [SYNC_SIZE]. *)
Theorem read_header_short_sync blocks tail :
  Forall wf_block blocks ->
  Z.of_nat (length tail) < SYNC_SIZE ->
  short (MAGIC ++ (flat_map write_block blocks ++ write_long 0) ++ tail) ->
  exists out fo',
    read_header
      (mkBytesIO (MAGIC ++ (flat_map write_block blocks ++ write_long 0)
                  ++ tail) 0)
    = (Ok out, fo') /\
    sync out = tail /\
    Z.of_nat (length (sync out)) < SYNC_SIZE /\
    head_bytes out
    = MAGIC ++ (flat_map write_block blocks ++ write_long 0) ++ tail.
Proof.
  intros Hblocks Hshort Hfits. eexists _, _.
  split.
  - apply read_header_layout.
    + apply consumes_blocks; [exact Hblocks |].
      rewrite !length_app. pose proof (length_flat_map_write_block blocks).
      lia.
    + now rewrite take_ge by lia.
  - cbn [sync head_bytes]. rewrite take_ge by lia. auto.
Qed.

Lemma read_header_short_sync_witness :
  exists out fo',
    read_header
      (mkBytesIO (MAGIC ++ (flat_map write_block sample_blocks ++ write_long 0)
                  ++ [x55; x55]) 0)
    = (Ok out, fo') /\
    sync out = [x55; x55] /\
    Z.of_nat (length (sync out)) < SYNC_SIZE /\
    head_bytes out
    = MAGIC ++ (flat_map write_block sample_blocks ++ write_long 0)
      ++ [x55; x55].
Proof.
  apply (read_header_short_sync sample_blocks [x55; x55]).
  - repeat constructor; unfold short; simpl; first [discriminate | lia].
  - reflexivity.
  - vm_compute. reflexivity.
Defined.

Lemma py_range_negative_count n : n < 0 -> py_range 0 n 1 = [].
Proof.
  intros Hn. unfold py_range, range_len.
  change (0 <? 1) with true. cbv iota.
  now replace (0 <? n) with false by (symmetry; apply Z.ltb_ge; lia).
Qed.

(** X13: a negative count reads no entry: [read_header] takes it for a
    block without entries and reads the next long as the next count.
    A header that begins with a negative count, then goes on as the
    writer lays it out (in all fewer than [2 ^ 63] bytes), is read
    with that count as part of the header bytes. *)
Theorem read_header_negative_count n blocks sync_token data :
  is_long n -> n < 0 ->
  wf_header blocks sync_token ->
  short (MAGIC ++ (write_long n ++ flat_map write_block blocks
                   ++ write_long 0) ++ sync_token) ->
  read_header
    (mkBytesIO (MAGIC ++ (write_long n ++ flat_map write_block blocks
                          ++ write_long 0) ++ sync_token ++ data) 0) =
  (Ok {| meta := ∅; sync := sync_token;
         header_size :=
           Z.of_nat (length (MAGIC ++ (write_long n
                                       ++ flat_map write_block blocks
                                       ++ write_long 0) ++ sync_token));
         head_bytes :=
           MAGIC ++ (write_long n ++ flat_map write_block blocks
                     ++ write_long 0) ++ sync_token |},
   mkBytesIO (MAGIC ++ (write_long n ++ flat_map write_block blocks
                        ++ write_long 0) ++ sync_token ++ data)
             (length (MAGIC ++ (write_long n ++ flat_map write_block blocks
                                ++ write_long 0) ++ sync_token))).
Proof.
  intros Hlong Hneg (Hblocks & Hsync & _) Hfits.
  pose proof (read_header_layout
                (write_long n ++ flat_map write_block blocks ++ write_long 0)
                (sync_token ++ data)) as Hlayout.
  rewrite (take_app_length' sync_token data) in Hlayout by lia.
  apply Hlayout; [| exact Hfits]. rewrite read_header_loop_eq.
  apply consumes_bind with (a := n); [now apply consumes_read_long |].
  replace (n =? 0) with false by (symmetry; apply Z.eqb_neq; lia).
  rewrite py_range_negative_count by exact Hneg. cbn [for_].
  intros fo rest Hun. rewrite bind_ret.
  refine (consumes_blocks blocks Hblocks _ _ fo rest Hun).
  rewrite !length_app. pose proof (length_flat_map_write_block blocks).
  pose proof (length_varint_pos 9 (zigzag n)). unfold write_long. lia.
Qed.

Lemma read_header_negative_count_witness :
  read_header
    (mkBytesIO (MAGIC ++ (write_long (-1) ++ flat_map write_block sample_blocks
                          ++ write_long 0) ++ sample_sync ++ sample_data) 0) =
  (Ok {| meta := ∅; sync := sample_sync;
         header_size :=
           Z.of_nat (length (MAGIC ++ (write_long (-1)
                                       ++ flat_map write_block sample_blocks
                                       ++ write_long 0) ++ sample_sync));
         head_bytes :=
           MAGIC ++ (write_long (-1) ++ flat_map write_block sample_blocks
                     ++ write_long 0) ++ sample_sync |},
   mkBytesIO (MAGIC ++ (write_long (-1) ++ flat_map write_block sample_blocks
                        ++ write_long 0) ++ sample_sync ++ sample_data)
             (length (MAGIC ++ (write_long (-1)
                                ++ flat_map write_block sample_blocks
                                ++ write_long 0) ++ sample_sync))).
Proof.
  apply (read_header_negative_count (-1) sample_blocks sample_sync sample_data).
  - unfold is_long. lia.
  - lia.
  - split; [| split; [reflexivity | vm_compute; reflexivity]].
    repeat constructor; unfold short; simpl; first [discriminate | lia].
  - vm_compute. reflexivity.
Defined.

(** ** [read_chunk] after [read_header] *)

(** X14: with the header that [read_header] returned for a file read
    from its start, the bytes that [read_chunk] hands to the decoder
    always begin with the magic marker, whatever the buffer that
    [read_block] returned. *)
Theorem read_chunk_hands_container {OpenFile Rec : Type}
    (read_block : OpenFile -> Z -> Z -> bytes -> outcome bytes)
    (iter_avro : BytesIO -> outcome (list Rec))
    (fo fo' : BytesIO) (fobj : OpenFile) (off l : Z) (head : Header)
    (chunk : bytes) :
  pos fo = 0%nat ->
  read_header fo = (Ok head, fo') ->
  read_block fobj off l (sync head) = Ok chunk ->
  exists container,
    read_chunk read_block iter_avro fobj off l head
    = iter_avro (mkBytesIO container 0) /\
    take (length MAGIC) container = MAGIC.
Proof.
  intros Hstart Hrun Hblock. unfold read_chunk.
  rewrite Hblock, startswith_MAGIC.
  destruct (bool_decide_reflect (take 4 chunk = MAGIC)) as [Hm | Hm];
    cbn [negb]; eexists; (split; [reflexivity |]); [exact Hm |].
  apply read_header_inv in Hrun
    as (p & Hmagic & Hp & Hin & _ & _ & _ & Hhead & _).
  unfold unread in Hmagic. rewrite Hstart in Hmagic, Hp. simpl in Hmagic, Hp.
  change (length MAGIC) with 4%nat.
  rewrite take_app_le by (rewrite Hhead, length_take; lia).
  rewrite Hhead, take_take, Nat.min_l by lia. exact Hmagic.
Qed.

Lemma read_chunk_hands_container_witness :
  exists container,
    read_chunk sample_read_block sample_iter_avro sample_file 29 16
               sample_header
    = sample_iter_avro (mkBytesIO container 0) /\
    take (length MAGIC) container = MAGIC.
Proof.
  apply (read_chunk_hands_container sample_read_block sample_iter_avro
           sample_file (mkBytesIO (buf sample_file) 26) sample_file 29 16
           sample_header sample_sync);
    [reflexivity | vm_compute; reflexivity | reflexivity].
Defined.

(** X15: the header of a file laid out by the writer does not depend
    on what follows it: [read_header] on the header bytes followed by
    any buffer, as [read_chunk] puts them together, returns the header
    that it returned for the file. *)
Theorem read_header_of_reconstructed_chunk blocks sync_token data chunk :
  wf_header blocks sync_token ->
  exists head fo',
    read_header (mkBytesIO (write_header blocks sync_token ++ data) 0)
    = (Ok head, fo') /\
    read_header (mkBytesIO (head_bytes head ++ chunk) 0)
    = (Ok head,
       mkBytesIO (head_bytes head ++ chunk) (length (head_bytes head))).
Proof.
  intros Hwf. eexists _, _.
  split; [now apply read_header_write_header |].
  cbn [head_bytes]. now apply read_header_write_header.
Qed.

Lemma read_header_of_reconstructed_chunk_witness :
  exists head fo',
    read_header (mkBytesIO (write_header sample_blocks sample_sync
                            ++ sample_data) 0)
    = (Ok head, fo') /\
    read_header (mkBytesIO (head_bytes head ++ [x02; x02; x2a]) 0)
    = (Ok head,
       mkBytesIO (head_bytes head ++ [x02; x02; x2a])
                 (length (head_bytes head))).
Proof.
  apply (read_header_of_reconstructed_chunk sample_blocks sample_sync
           sample_data [x02; x02; x2a]).
  split; [| split; [reflexivity | vm_compute; reflexivity]].
  repeat constructor; unfold short; simpl; first [discriminate | lia].
Defined.

(** ** The tasks of one file *)

Lemma string_length_app (s t : string) :
  String.length (s +:+ t) = (String.length s + String.length t)%nat.
Proof. induction s as [| a s IH]; simpl; [reflexivity | now rewrite IH]. Qed.

Lemma string_app_inv_tail (s1 s2 t : string) :
  s1 +:+ t = s2 +:+ t -> s1 = s2.
Proof.
  revert s2. induction s1 as [| a s1 IH]; intros [| b s2] Heq.
  - reflexivity.
  - apply (f_equal String.length) in Heq.
    rewrite !string_length_app in Heq. simpl in Heq. lia.
  - apply (f_equal String.length) in Heq.
    rewrite !string_length_app in Heq. simpl in Heq. lia.
  - injection Heq as -> Heq. f_equal. now apply IH.
Qed.

Lemma key_name_inj token o1 o2 :
  key_name o1 token = key_name o2 token -> o1 = o2.
Proof.
  unfold key_name. intros Heq.
  apply String.app_inj, string_app_inv_tail in Heq.
  now apply pretty_Z_inj in Heq.
Qed.

Lemma file_tasks_eq {OpenFile} (f : OpenFile) offset (b : Z) head token :
  file_tasks f offset (repeat b (length offset)) head token
  = map (fun o => mkDelayed f o b head (key_name o token)) offset.
Proof.
  unfold file_tasks. induction offset as [| o offset IH]; [reflexivity |].
  cbn [map zip zip_with length repeat fst snd] in *. now rewrite IH.
Qed.

(** X16: the tasks made for one file, planned with a positive block
    size, are one [read_chunk] call for each window, in order, with the
    offset and the length of the window, and no two of them have the
    same key name. *)
Theorem file_tasks_keys {OpenFile} (f : OpenFile) (S B : Z) (head : Header)
    (token : string) :
  0 <= S -> 0 < B ->
  exists off len ws,
    file_offsets_lengths S B = Ok (off, len) /\
    windows S B = Ok ws /\
    map (fun t => (arg_off t, arg_l t)) (file_tasks f off len head token) = ws /\
    map dask_key_name (file_tasks f off len head token)
    = map (fun o => key_name o token) off /\
    NoDup (map dask_key_name (file_tasks f off len head token)).
Proof.
  intros HS HB.
  assert (Hfile : file_offsets_lengths S B
                  = Ok (py_range 0 S B, repeat B (length (py_range 0 S B)))).
  { unfold file_offsets_lengths.
    now replace (B =? 0) with false by (symmetry; apply Z.eqb_neq; lia). }
  eexists _, _, _. split; [exact Hfile |].
  split; [unfold windows; rewrite Hfile; reflexivity |].
  rewrite file_tasks_eq, zip_repeat_length, !map_map. cbn [arg_off arg_l dask_key_name].
  repeat split.
  apply NoDup_fmap_2_strong.
  - intros o1 o2 _ _. apply key_name_inj.
  - unfold py_range. apply NoDup_fmap_2_strong; [| apply NoDup_seq].
    intros i j _ _ Hij. nia.
Qed.

Lemma file_tasks_keys_witness :
  exists off len ws,
    file_offsets_lengths 5 2 = Ok (off, len) /\
    windows 5 2 = Ok ws /\
    map (fun t => (arg_off t, arg_l t))
        (file_tasks sample_file off len sample_header "t0k3n") = ws /\
    map dask_key_name (file_tasks sample_file off len sample_header "t0k3n")
    = map (fun o => key_name o "t0k3n") off /\
    NoDup (map dask_key_name
               (file_tasks sample_file off len sample_header "t0k3n")).
Proof. apply (file_tasks_keys sample_file 5 2 sample_header "t0k3n"); lia. Defined.

(** ** The header bytes are a header *)

Lemma unread_truncate q fo :
  (pos fo <= q)%nat -> unread (truncate q fo) = take (q - pos fo) (unread fo).
Proof.
  intros Hq. unfold unread, truncate. cbn [buf pos].
  rewrite take_drop_commute. f_equal. f_equal. lia.
Qed.

Lemma local_ret {A} (a : A) : local (ret a).
Proof. intros fo a' fo' q [= <- <-] _. reflexivity. Qed.

Lemma local_bind {A B} (m : M A) (k : A -> M B) :
  local m -> (forall a, local (k a)) -> (forall a, steady (k a)) ->
  local (bind m k).
Proof.
  intros Hm Hk Hs fo b fo2 q Hrun Hq.
  apply bind_ok_inv in Hrun as (a & fo1 & Hrun1 & Hrun2).
  pose proof (Hs a _ _ _ Hrun2) as (_ & Hp & _).
  rewrite (bind_ok _ _ _ _ _ (Hm _ _ _ q Hrun1 ltac:(lia))).
  now apply Hk.
Qed.

Lemma local_read size : local (read size).
Proof.
  intros fo out fo' q Hrun Hq.
  pose proof (read_ok_range _ _ _ _ Hrun) as Hfit.
  apply read_inv in Hrun as (Hout & Hb & Hp).
  destruct fo' as [b' p']. cbn [buf pos] in *. subst b' p'.
  rewrite read_eq by exact Hfit.
  assert (Hdata : read_data size (truncate q fo) = out).
  { rewrite Hout. unfold read_data.
    rewrite unread_truncate by lia.
    assert (Hlen : (length out <= q - pos fo)%nat) by lia.
    rewrite Hout in Hlen. unfold read_data in Hlen.
    destruct (size <? 0).
    - apply take_ge. exact Hlen.
    - rewrite take_take. rewrite length_take in Hlen.
      destruct (Nat.le_gt_cases (Z.to_nat size) (q - pos fo)).
      + now rewrite Nat.min_l.
      + rewrite Nat.min_r by lia. now rewrite !take_ge by lia. }
  rewrite Hdata. reflexivity.
Qed.

Lemma local_ord c : local (ord c).
Proof.
  destruct c as [| b [| b' c]]; intros fo a fo' q Hrun _; try discriminate.
  injection Hrun as <- <-. reflexivity.
Qed.

Lemma local_assert cond msg : local (assert_ cond msg).
Proof.
  destruct cond; intros fo a fo' q Hrun _; [| discriminate].
  injection Hrun as <- <-. reflexivity.
Qed.

Lemma local_read_long_loop fuel :
  forall b n shift, local (read_long_loop fuel b n shift).
Proof.
  induction fuel as [| fuel IH]; intros b n shift;
    rewrite read_long_loop_eq; destruct (_ =? _); try apply local_ret.
  - intros fo a fo' q Hrun. discriminate.
  - apply local_bind; [apply local_read | | ].
    + intros c. apply local_bind; [apply local_ord | intros b'; apply IH |].
      intros b'. apply steady_read_long_loop.
    + intros c. apply steady_bind; [apply steady_ord | intros b'].
      apply steady_read_long_loop.
Qed.

(** More fuel than a loop needs changes nothing. *)
Lemma read_long_loop_fuel fuel :
  forall fuel' b n shift fo,
    (fuel <= fuel')%nat ->
    fst (read_long_loop fuel b n shift fo) <> OutOfFuel ->
    read_long_loop fuel' b n shift fo = read_long_loop fuel b n shift fo.
Proof.
  induction fuel as [| fuel IH]; intros fuel' b n shift fo Hle Hrun;
    rewrite read_long_loop_eq in Hrun;
    rewrite (read_long_loop_eq fuel'), (read_long_loop_eq _ b);
    destruct (_ =? _); try reflexivity.
  - now destruct Hrun.
  - destruct fuel' as [| fuel']; [lia |].
    unfold bind in *. destruct (read 1 fo) as [[c | e |] fo1]; try reflexivity.
    destruct (ord c fo1) as [[b' | e |] fo2]; try reflexivity.
    apply IH; [lia | exact Hrun].
Qed.

Lemma local_read_long : local read_long.
Proof.
  intros fo v fo' q Hrun Hq. unfold read_long in *.
  apply bind_ok_inv in Hrun as (c & fo1 & Hread & Hrun).
  apply bind_ok_inv in Hrun as (b & fo2 & Hord & Hrun).
  rewrite bind_fuel_here in Hrun.
  apply bind_ok_inv in Hrun as (n & fo3 & Hloop & Hrun).
  injection Hrun as <- <-.
  pose proof (steady_read_long_loop _ _ _ _ _ _ _ Hloop) as (_ & Hp3 & _).
  pose proof (steady_ord _ _ _ _ Hord) as (_ & Hp2 & _).
  rewrite (bind_ok _ _ _ _ _ (local_read _ _ _ _ q Hread ltac:(lia))).
  rewrite (bind_ok _ _ _ _ _ (local_ord _ _ _ _ q Hord ltac:(lia))).
  rewrite bind_fuel_here.
  pose proof (local_read_long_loop _ _ _ _ _ _ _ q Hloop Hq) as Hcut.
  rewrite (read_long_loop_fuel (S (length (unread (truncate q fo2))))) in Hcut.
  - now rewrite (bind_ok _ _ _ _ _ Hcut).
  - rewrite unread_truncate, length_take by lia. lia.
  - apply read_long_loop_terminates. lia.
Qed.

Lemma local_read_bytes : local read_bytes.
Proof.
  apply local_bind; [apply local_read_long | apply local_read |].
  apply steady_read.
Qed.

Lemma local_entry : local (read_bytes ;;; read_bytes ;;; ret tt).
Proof.
  apply local_bind; [apply local_read_bytes | intros _ | intros _].
  - apply local_bind; [apply local_read_bytes | intros _; apply local_ret |].
    intros _. apply steady_ret.
  - apply steady_bind; [apply steady_read_bytes | intros _; apply steady_ret].
Qed.

Lemma local_for {A} (l : list A) (body : A -> M unit) :
  (forall x, local (body x)) -> (forall x, steady (body x)) ->
  local (for_ l body).
Proof.
  intros Hl Hs. induction l as [| x l IH]; simpl; [apply local_ret |].
  apply local_bind; [apply Hl | intros _; exact IH |].
  intros _. now apply steady_for.
Qed.

Lemma local_read_header_loop fuel : local (read_header_loop fuel).
Proof.
  induction fuel as [| fuel IH].
  - intros fo a fo' q Hrun. discriminate.
  - rewrite read_header_loop_eq.
    apply local_bind; [apply local_read_long | intros n_keys | intros n_keys];
      destruct (_ =? _);
      try apply local_ret; try apply steady_ret.
    + apply local_bind; [| intros _; exact IH |].
      * apply local_for; intros _; [apply local_entry | apply steady_entry].
      * intros _. apply steady_read_header_loop.
    + apply steady_bind; [| intros _; apply steady_read_header_loop].
      apply steady_for. intros _. apply steady_entry.
Qed.

Lemma read_header_loop_fuel fuel :
  forall fuel' fo,
    (fuel <= fuel')%nat ->
    fst (read_header_loop fuel fo) <> OutOfFuel ->
    read_header_loop fuel' fo = read_header_loop fuel fo.
Proof.
  induction fuel as [| fuel IH]; intros fuel' fo Hle Hrun;
    [now destruct Hrun |].
  destruct fuel' as [| fuel']; [lia |].
  rewrite !read_header_loop_eq in *. unfold bind in *.
  destruct (read_long fo) as [[n_keys | e |] fo1]; try reflexivity.
  destruct (_ =? _); [reflexivity |].
  destruct (for_ _ _ fo1) as [[u | e |] fo2]; try reflexivity.
  apply IH; [lia | exact Hrun].
Qed.

(** X17: the header bytes are themselves a complete header: when
    [read_header] succeeds on a source read from its start, it
    succeeds on [head_bytes] alone and returns the same header, having
    read them to the end. *)
Theorem read_header_self_contained fo head fo' :
  pos fo = 0%nat ->
  read_header fo = (Ok head, fo') ->
  read_header (mkBytesIO (head_bytes head) 0) =
  (Ok head, mkBytesIO (head_bytes head) (length (head_bytes head))).
Proof.
  intros Hstart Hrun.
  pose proof (read_header_inv _ _ _ Hrun)
    as (p & _ & _ & Hin & _ & _ & Hsize & Hhead & Hfo').
  set (q := (p + length (sync head))%nat) in *.
  assert (Hlen : length (head_bytes head) = q).
  { rewrite Hhead, length_take. lia. }
  assert (Hcut : mkBytesIO (head_bytes head) 0 = truncate q fo).
  { unfold truncate. now rewrite Hhead, Hstart. }
  assert (Hend : mkBytesIO (head_bytes head) q = truncate q fo').
  { unfold truncate. now rewrite Hhead, Hfo'. }
  rewrite Hlen, Hcut, Hend. clear Hcut Hend Hlen Hhead Hin.
  unfold read_header in *.
  apply bind_ok_inv in Hrun as (magic & fo1 & Hmagic & Hrun).
  apply bind_ok_inv in Hrun as (u & fo2 & Hassert & Hrun).
  rewrite bind_fuel_here in Hrun.
  apply bind_ok_inv in Hrun as (u' & fo3 & Hloop & Hrun).
  apply bind_ok_inv in Hrun as (sy & fo4 & Hsync & Hrun).
  rewrite bind_tell, bind_seek_start in Hrun.
  apply bind_ok_inv in Hrun as (hb & fo5 & Hread & Hrun).
  injection Hrun as Hhd Hfo5. subst fo5.
  assert (E4 : pos fo4 = q).
  { rewrite <- Hhd in Hsize. cbn [header_size] in Hsize. lia. }
  pose proof (steady_assert _ _ _ _ _ Hassert) as (_ & Hp2 & _).
  pose proof (steady_read_header_loop _ _ _ _ Hloop) as (_ & Hp3 & _).
  pose proof (steady_read _ _ _ _ Hsync) as (_ & Hp4 & _).
  rewrite (bind_ok _ _ _ _ _ (local_read _ _ _ _ q Hmagic ltac:(lia))).
  rewrite (bind_ok _ _ _ _ _ (local_assert _ _ _ _ _ q Hassert ltac:(lia))).
  rewrite bind_fuel_here.
  pose proof (local_read_header_loop _ _ _ _ q Hloop ltac:(lia)) as Hcut.
  rewrite (read_header_loop_fuel (S (length (unread (truncate q fo2)))))
    in Hcut;
    [| rewrite unread_truncate, length_take by lia; lia
     | apply read_header_loop_terminates; lia].
  rewrite (bind_ok _ _ _ _ _ Hcut).
  rewrite (bind_ok _ _ _ _ _ (local_read _ _ _ _ q Hsync ltac:(lia))).
  rewrite bind_tell, bind_seek_start. cbn [truncate buf pos].
  assert (Hq' : (pos fo' <= q)%nat) by (rewrite Hfo'; simpl; lia).
  pose proof (local_read _ _ _ _ q Hread Hq') as Hcut'.
  unfold truncate at 1 in Hcut'. cbn [buf pos] in Hcut'.
  rewrite (bind_ok _ _ _ _ _ Hcut'). unfold ret. now rewrite Hhd.
Qed.

Lemma read_header_self_contained_witness :
  read_header (mkBytesIO (head_bytes sample_header) 0) =
  (Ok sample_header,
   mkBytesIO (head_bytes sample_header) (length (head_bytes sample_header))).
Proof.
  apply (read_header_self_contained sample_file sample_header
           (mkBytesIO (buf sample_file) 26));
    [reflexivity | vm_compute; reflexivity].
Defined.

(** ** The header does not depend on the data after it *)

Lemma stable_ret {A} (a : A) : stable (ret a).
Proof. intros fo a' fo' b2 [= <- <-] _ _ _. reflexivity. Qed.

Lemma stable_bind {A B} (m : M A) (k : A -> M B) :
  stable m -> steady m -> (forall a, stable (k a)) ->
  (forall a, steady (k a)) ->
  stable (bind m k).
Proof.
  intros Hm Hsm Hk Hsk fo b fo2 b2 Hrun Hin Hin2 Hagree.
  apply bind_ok_inv in Hrun as (a & fo1 & Hrun1 & Hrun2).
  pose proof (Hsk a _ _ _ Hrun2) as (Hb2 & Hp & _).
  pose proof (Hsm _ _ _ Hrun1) as (Hb1 & _ & _).
  assert (Hagree1 : take (pos fo1) b2 = take (pos fo1) (buf fo)).
  { rewrite <- (Nat.min_l (pos fo1) (pos fo2)) by lia.
    now rewrite <- !take_take, Hagree. }
  rewrite (bind_ok _ _ _ _ _
             (Hm _ _ _ b2 Hrun1 ltac:(lia) ltac:(lia) Hagree1)).
  apply (Hk a fo1 b fo2 b2 Hrun2); rewrite ?Hb1; auto.
Qed.

Lemma stable_read size : stable (read size).
Proof.
  intros fo out fo' b2 Hrun Hin Hin2 Hagree.
  pose proof (read_ok_range _ _ _ _ Hrun) as Hfit.
  apply read_inv in Hrun as (Hout & Hb & Hp).
  destruct fo' as [b' p']. cbn [buf pos] in *. subst b' p'.
  assert (Hlen : (length out < length (unread fo))%nat)
    by (rewrite length_unread; lia).
  unfold read_data in Hout.
  destruct (size <? 0) eqn:Hneg; [rewrite Hout in Hlen; lia |].
  assert (Hn : length out = Z.to_nat size).
  { rewrite Hout, length_take in *. lia. }
  rewrite read_eq by exact Hfit. unfold read_data, unread, rebuf.
  cbn [buf pos].
  rewrite Hneg.
  assert (Hdata : take (Z.to_nat size) (drop (pos fo) b2) = out).
  { rewrite take_drop_commute, <- Hn, Hagree, <- take_drop_commute, Hn.
    exact (eq_sym Hout). }
  now rewrite Hdata.
Qed.

Lemma stable_ord c : stable (ord c).
Proof.
  destruct c as [| b [| b' c]]; intros fo a fo' b2 Hrun _ _ _;
    try discriminate.
  injection Hrun as <- <-. reflexivity.
Qed.

Lemma stable_assert cond msg : stable (assert_ cond msg).
Proof.
  destruct cond; intros fo a fo' b2 Hrun _ _ _; [| discriminate].
  injection Hrun as <- <-. reflexivity.
Qed.

Lemma stable_read_long_loop fuel :
  forall b n shift, stable (read_long_loop fuel b n shift).
Proof.
  induction fuel as [| fuel IH]; intros b n shift;
    rewrite read_long_loop_eq; destruct (_ =? _); try apply stable_ret.
  - intros fo a fo' b2 Hrun. discriminate.
  - apply stable_bind; [apply stable_read | apply steady_read | |].
    + intros c. apply stable_bind;
        [apply stable_ord | apply steady_ord | intros b'; apply IH |].
      intros b'. apply steady_read_long_loop.
    + intros c. apply steady_bind; [apply steady_ord | intros b'].
      apply steady_read_long_loop.
Qed.

(** A successful run is the run with any amount of fuel that
    suffices. *)
Lemma read_long_loop_enough fuel1 fuel2 b n shift fo a fo' :
  read_long_loop fuel1 b n shift fo = (Ok a, fo') ->
  (length (unread fo) < fuel2)%nat ->
  read_long_loop fuel2 b n shift fo = (Ok a, fo').
Proof.
  intros Hrun H2. destruct (Nat.le_ge_cases fuel1 fuel2).
  - rewrite (read_long_loop_fuel fuel1 fuel2) by (rewrite ?Hrun; easy).
    exact Hrun.
  - rewrite <- (read_long_loop_fuel fuel2 fuel1);
      [exact Hrun | lia | now apply read_long_loop_terminates].
Qed.

Lemma read_header_loop_enough fuel1 fuel2 fo a fo' :
  read_header_loop fuel1 fo = (Ok a, fo') ->
  (length (unread fo) < fuel2)%nat ->
  read_header_loop fuel2 fo = (Ok a, fo').
Proof.
  intros Hrun H2. destruct (Nat.le_ge_cases fuel1 fuel2).
  - rewrite (read_header_loop_fuel fuel1 fuel2) by (rewrite ?Hrun; easy).
    exact Hrun.
  - rewrite <- (read_header_loop_fuel fuel2 fuel1);
      [exact Hrun | lia | now apply read_header_loop_terminates].
Qed.

Lemma stable_read_long : stable read_long.
Proof.
  intros fo v fo' b2 Hrun Hin Hin2 Hagree. unfold read_long in *.
  apply bind_ok_inv in Hrun as (c & fo1 & Hread & Hrun).
  apply bind_ok_inv in Hrun as (b & fo2 & Hord & Hrun).
  rewrite bind_fuel_here in Hrun.
  apply bind_ok_inv in Hrun as (n & fo3 & Hloop & Hrun).
  injection Hrun as <- <-.
  pose proof (steady_read_long_loop _ _ _ _ _ _ _ Hloop) as (Hb3 & Hp3 & _).
  pose proof (steady_ord _ _ _ _ Hord) as (Hb2 & Hp2 & _).
  pose proof (steady_read _ _ _ _ Hread) as (Hb1 & Hp1 & _).
  assert (Hagree2 : take (pos fo2) b2 = take (pos fo2) (buf fo)).
  { rewrite <- (Nat.min_l (pos fo2) (pos fo3)) by lia.
    now rewrite <- !take_take, Hagree. }
  assert (Hagree1 : take (pos fo1) b2 = take (pos fo1) (buf fo)).
  { rewrite <- (Nat.min_l (pos fo1) (pos fo2)) by lia.
    now rewrite <- !take_take, Hagree2. }
  rewrite (bind_ok _ _ _ _ _
             (stable_read _ _ _ _ b2 Hread ltac:(lia) ltac:(lia) Hagree1)).
  rewrite (bind_ok _ _ _ _ _
             (stable_ord _ _ _ _ b2 Hord ltac:(rewrite Hb1; lia) ltac:(lia)
                ltac:(now rewrite Hb1))).
  rewrite bind_fuel_here.
  pose proof (stable_read_long_loop _ _ _ _ _ _ _ b2 Hloop
                ltac:(rewrite Hb2, Hb1; lia) ltac:(lia)
                ltac:(now rewrite Hb2, Hb1)) as Hcut.
  apply (read_long_loop_enough _ (S (length (unread (rebuf b2 fo2)))))
    in Hcut; [| lia].
  now rewrite (bind_ok _ _ _ _ _ Hcut).
Qed.

Lemma stable_read_bytes : stable read_bytes.
Proof.
  apply stable_bind;
    [apply stable_read_long | apply steady_read_long | apply stable_read
     | apply steady_read].
Qed.

Lemma stable_entry : stable (read_bytes ;;; read_bytes ;;; ret tt).
Proof.
  apply stable_bind;
    [apply stable_read_bytes | apply steady_read_bytes | intros _ | intros _].
  - apply stable_bind;
      [apply stable_read_bytes | apply steady_read_bytes
       | intros _; apply stable_ret | intros _; apply steady_ret].
  - apply steady_bind; [apply steady_read_bytes | intros _; apply steady_ret].
Qed.

Lemma stable_for {A} (l : list A) (body : A -> M unit) :
  (forall x, stable (body x)) -> (forall x, steady (body x)) ->
  stable (for_ l body).
Proof.
  intros Hl Hs. induction l as [| x l IH]; simpl; [apply stable_ret |].
  apply stable_bind; [apply Hl | apply Hs | intros _; exact IH |].
  intros _. now apply steady_for.
Qed.

Lemma stable_read_header_loop fuel : stable (read_header_loop fuel).
Proof.
  induction fuel as [| fuel IH].
  - intros fo a fo' b2 Hrun. discriminate.
  - rewrite read_header_loop_eq.
    apply stable_bind;
      [apply stable_read_long | apply steady_read_long
       | intros n_keys | intros n_keys];
      destruct (_ =? _);
      try apply stable_ret; try apply steady_ret.
    + apply stable_bind; [| | intros _; exact IH |].
      * apply stable_for; intros _; [apply stable_entry | apply steady_entry].
      * apply steady_for. intros _. apply steady_entry.
      * intros _. apply steady_read_header_loop.
    + apply steady_bind; [| intros _; apply steady_read_header_loop].
      apply steady_for. intros _. apply steady_entry.
Qed.

(** X18: the header that [read_header] returns for a file, read from
    its start and with a complete sync token, is the header of every
    chunk that [read_chunk] puts together: [read_header] on the header
    bytes followed by any buffer returns the same header and stops at
    the end of the header bytes. *)
Theorem read_header_any_data fo head fo' chunk :
  pos fo = 0%nat ->
  read_header fo = (Ok head, fo') ->
  Z.of_nat (length (sync head)) = SYNC_SIZE ->
  read_header (mkBytesIO (head_bytes head ++ chunk) 0) =
  (Ok head,
   mkBytesIO (head_bytes head ++ chunk) (length (head_bytes head))).
Proof.
  intros Hstart Hrun Hfull.
  pose proof (read_header_inv _ _ _ Hrun)
    as (p & _ & _ & Hin & _ & Hsy & Hsize & Hhead & Hfo').
  set (q := (p + length (sync head))%nat) in *.
  assert (Hlen : length (head_bytes head) = q).
  { rewrite Hhead, length_take. lia. }
  set (b2 := head_bytes head ++ chunk).
  assert (Hag : forall k, (k <= q)%nat -> take k b2 = take k (buf fo)).
  { intros k Hk. unfold b2. rewrite take_app_le by lia.
    rewrite Hhead, take_take. f_equal. lia. }
  assert (Hb2 : (q <= length b2)%nat)
    by (unfold b2; rewrite length_app; lia).
  assert (Hcut : mkBytesIO b2 0 = rebuf b2 fo).
  { unfold rebuf. now rewrite Hstart. }
  rewrite Hlen, Hcut. clear Hcut.
  unfold read_header in *.
  apply bind_ok_inv in Hrun as (magic & fo1 & Hmagic & Hrun).
  apply bind_ok_inv in Hrun as (u & fo2 & Hassert & Hrun).
  rewrite bind_fuel_here in Hrun.
  apply bind_ok_inv in Hrun as (u' & fo3 & Hloop & Hrun).
  apply bind_ok_inv in Hrun as (sy & fo4 & Hsync & Hrun).
  rewrite bind_tell, bind_seek_start in Hrun.
  apply bind_ok_inv in Hrun as (hb & fo5 & Hread & Hrun).
  injection Hrun as Hhd Hfo5. subst fo5.
  assert (Hsy' : sync head = sy) by now rewrite <- Hhd.
  assert (Hhb : head_bytes head = hb) by now rewrite <- Hhd.
  assert (E4 : pos fo4 = q).
  { rewrite <- Hhd in Hsize. cbn [header_size] in Hsize. lia. }
  pose proof (steady_read _ _ _ _ Hmagic) as (Hbf1 & Hp1 & _).
  pose proof (steady_assert _ _ _ _ _ Hassert) as (Hbf2 & Hp2 & _).
  pose proof (steady_read_header_loop _ _ _ _ Hloop) as (Hbf3 & Hp3 & _).
  apply read_inv in Hsync as (Hs4 & Hbf4 & Hp4).
  assert (E3 : pos fo3 = p) by (rewrite <- Hsy' in Hp4; lia).
  assert (Hsixteen : length (sync head) = 16%nat)
    by (unfold SYNC_SIZE in Hfull; lia).
  assert (Hq : q = (p + 16)%nat) by (unfold q; lia).
  pose proof (stable_read _ _ _ _ b2 Hmagic) as Hcut1.
  rewrite (bind_ok _ _ _ _ _
             (Hcut1 ltac:(lia) ltac:(lia) (Hag (pos fo1) ltac:(lia)))).
  pose proof (stable_assert _ _ _ _ _ b2 Hassert) as Hcut2.
  rewrite Hbf1 in Hcut2.
  rewrite (bind_ok _ _ _ _ _
             (Hcut2 ltac:(lia) ltac:(lia) (Hag (pos fo2) ltac:(lia)))).
  rewrite bind_fuel_here.
  pose proof (stable_read_header_loop _ _ _ _ b2 Hloop) as Hcut.
  rewrite Hbf2, Hbf1 in Hcut.
  specialize (Hcut ltac:(lia) ltac:(lia) (Hag (pos fo3) ltac:(lia))).
  apply (read_header_loop_enough _ (S (length (unread (rebuf b2 fo2)))))
    in Hcut; [| lia].
  rewrite (bind_ok _ _ _ _ _ Hcut).
  unfold bind at 1. rewrite read_eq by reflexivity.
  assert (Hdata : read_data SYNC_SIZE (rebuf b2 fo3) = sy).
  { unfold read_data, unread, rebuf. cbn [buf pos].
    change (SYNC_SIZE <? 0) with false. cbv iota. rewrite E3.
    rewrite <- Hsy', Hsy, !take_drop_commute. f_equal.
    apply Hag. change (Z.to_nat SYNC_SIZE) with 16%nat. lia. }
  rewrite Hdata, bind_tell, bind_seek_start. cbn [rebuf buf pos].
  rewrite E3, <- Hsy'. fold q.
  assert (Hall : unread (mkBytesIO b2 0) = head_bytes head ++ chunk)
    by reflexivity.
  assert (Hfit : in_ssize (Z.of_nat (length (head_bytes head))) = true).
  { rewrite Hlen, <- E4. exact (read_ok_range _ _ _ _ Hread). }
  rewrite <- Hlen at 1.
  rewrite (bind_ok _ _ _ _ _
             (consumes_read _ (head_bytes head) eq_refl Hfit
                (mkBytesIO b2 0) chunk Hall)).
  cbn [buf pos]. unfold ret. rewrite Hlen, <- Hhd, <- E4. reflexivity.
Qed.

Lemma read_header_any_data_witness :
  read_header (mkBytesIO (head_bytes sample_header ++ [x02; x02; x2a]) 0) =
  (Ok sample_header,
   mkBytesIO (head_bytes sample_header ++ [x02; x02; x2a])
             (length (head_bytes sample_header))).
Proof.
  apply (read_header_any_data sample_file sample_header
           (mkBytesIO (buf sample_file) 26) [x02; x02; x2a]);
    [reflexivity | vm_compute; reflexivity | reflexivity].
Defined.

(** ** The task graph of [to_avro] *)

(** X19: the graph of [to_avro] has one task for each opened file and
    no other: the task under the key [(name, i)] writes the partition
    [i] of the bag to the file of index [i], with the schema, the
    codec, the sync interval and the metadata given; a key with
    another name, or an index beyond the files, has no task. *)
Theorem to_avro_dsk_lookup {File Schema Meta} (name bname : string)
    (files : list File) (schema : Schema) (codec : string)
    (sync_interval : Z) (metadata : Meta) (key : string) (i : nat) :
  to_avro_dsk name bname files schema codec sync_interval metadata
    !! (key, i)
  = if decide (key = name)
    then (fun f => mkWriteTask (bname, i) f schema codec sync_interval
                               metadata) <$> files !! i
    else None.
Proof.
  unfold to_avro_dsk. induction files as [| f files IH] using rev_ind.
  - simpl. rewrite lookup_empty. now destruct (decide _).
  - rewrite imap_app, foldl_app. cbn [imap foldl].
    rewrite Nat.add_0_r.
    destruct (decide ((name, length files) = (key, i))) as [Heq | Hne].
    + injection Heq as <- <-. rewrite lookup_insert_eq.
      rewrite decide_True by reflexivity.
      now rewrite lookup_app_r, Nat.sub_diag by lia.
    + rewrite lookup_insert_ne by exact Hne. rewrite IH.
      destruct (decide (key = name)) as [-> |]; [| reflexivity].
      assert (i <> length files) by congruence.
      destruct (Nat.lt_ge_cases i (length files)).
      * now rewrite lookup_app_l by lia.
      * rewrite !lookup_ge_None_2; [reflexivity | | lia].
        rewrite length_app. simpl. lia.
Qed.
